(** * mock-device: nested REPLs over a line-oriented client

    A shallow embedding of the Python package [mock_device]:

    - [parse_command.py]      : [parse_command] (on top of [shlex.split]);
    - [repl/match_based/matchers.py] : [match_on_cmd], [match_on_cmd_starts_with];
    - [repl/match_based/match_based.py] : [MatchBasedRepl.handle_command];
    - [repl/repl.py]          : [Repl.run], [exit], [exit_to_repl_class], [enter_repl];
    - [repl/command_based.py] : the [handler] and [command] decorators,
                                [CommandBasedRepl.register_handlers];
    - [client.py]             : [Client.set_echo], [readline], [prompt].

    Python objects that are shared and mutated (the REPL instances linked by
    [parent_repl], the client) live in an explicit store; coroutines are
    functions on that store whose outcome is a return, a raised exception or
    a read that is still waiting for input. *)

From Stdlib Require Import ZArith Lia Ascii.
From stdpp Require Import base list strings sorting.

(** ** Python values used by the package *)

(** A [str] is a sequence of code points below 256. *)
Definition chars (s : string) : list ascii := String.list_ascii_of_string s.
Definition str (cs : list ascii) : string := String.string_of_list_ascii cs.

(** [str.isspace] on one character: TAB, LF, VT, FF, CR, FS, GS, RS, US,
    SPACE, NEL and NBSP. *)
Definition py_isspace (c : ascii) : bool :=
  let n := Ascii.nat_of_ascii c in
  ((9 <=? n) && (n <=? 13)) || ((28 <=? n) && (n <=? 32))
  || (n =? 133) || (n =? 160).

Fixpoint lstrip_chars (cs : list ascii) : list ascii :=
  match cs with
  | c :: cs' => if py_isspace c then lstrip_chars cs' else cs
  | [] => []
  end.

Definition rstrip_chars (cs : list ascii) : list ascii :=
  rev (lstrip_chars (rev cs)).

(** [s.rstrip()] and [s.strip()] with no argument. *)
Definition rstrip (s : string) : string := str (rstrip_chars (chars s)).
Definition strip (s : string) : string :=
  str (rstrip_chars (lstrip_chars (chars s))).

(** The exceptions that the package raises or lets through. *)
Inductive exn : Type :=
| ValueError (msg : string)      (* shlex: malformed quoting *)
| IndexError (msg : string)      (* [shell_command[0]] on an empty list *)
| Exception (msg : string)       (* [raise Exception(...)] in [command] *)
| AttributeError (msg : string)  (* [getattr] of an attribute that is not there *)
| ConnectionLost (msg : string). (* a failed read on the process streams *)

(** Result of code that has no access to the session state. *)
Inductive Result (A : Type) : Type :=
| Ok (a : A)
| Err (e : exn).
Arguments Ok {A} a.
Arguments Err {A} e.

Definition res_bind {A B} (r : Result A) (k : A → Result B) : Result B :=
  match r with
  | Ok a => k a
  | Err e => Err e
  end.

(** ** [shlex.split] (Python standard library)

    [shlex.split(s)] builds [shlex(s, posix=True)], sets
    [whitespace_split = True] and [commenters = ''], and collects the
    tokens of [read_token] until it returns [None].  The lexer state
    [self.state] is [' '] (between tokens), ['a'] (inside a word), a quote
    character, or the escape character; [escapedstate] remembers where an
    escape returns to. *)
Module Shlex.

(** The double quote character. *)
Definition dquote : ascii := ascii_of_nat 34.

Definition whitespace (c : ascii) : bool :=
  match c with
  | " " | "009" | "013" | "010" => true
  | _ => false
  end%char.

Definition escape (c : ascii) : bool :=
  match c with "\" => true | _ => false end%char.

Definition quotes (c : ascii) : bool :=
  bool_decide (c = "'"%char) || bool_decide (c = dquote).

Definition escapedquotes (c : ascii) : bool :=
  bool_decide (c = dquote).

(** Where the lexer is once the escaped character has been read:
    back in a word, or back inside the quote [q]. *)
Inductive escaped_state : Type :=
| EWord
| EQuote (q : ascii).

Inductive lex_state : Type :=
| SSpace                                   (* [' '] *)
| SWord                                    (* ['a'] *)
| SQuote (q : ascii)                       (* [state in quotes] *)
| SEscape (e : ascii) (back : escaped_state). (* [state in escape] *)

Definition push (token : string) (c : ascii) : string :=
  token +:+ String c EmptyString.

(** What [read_token] hands back when it leaves its loop: [None] for an
    unquoted empty token. *)
Definition emit (token : string) (quoted : bool) : list string :=
  if negb quoted && bool_decide (token = EmptyString) then [] else [token].

(** All calls of [read_token] over the remaining input [cs].  [token] and
    [quoted] are the token under construction and the flag of the
    current call. *)
Fixpoint read_tokens (cs : list ascii) (state : lex_state)
    (token : string) (quoted : bool) : Result (list string) :=
  match state with
  | SSpace =>
      match cs with
      | [] => Ok (emit token quoted)
      | c :: cs' =>
          if whitespace c then
            if negb (bool_decide (token = EmptyString)) || quoted
            then res_bind (read_tokens cs' SSpace EmptyString false)
                   (λ ts, Ok (token :: ts))
            else read_tokens cs' SSpace token quoted
          else if escape c then read_tokens cs' (SEscape c EWord) token quoted
          else if quotes c then read_tokens cs' (SQuote c) token quoted
          else read_tokens cs' SWord (String c EmptyString) quoted
      end
  | SQuote q =>
      match cs with
      | [] => Err (ValueError "No closing quotation")
      | c :: cs' =>
          if bool_decide (c = q) then read_tokens cs' SWord token true
          else if escape c && escapedquotes q
          then read_tokens cs' (SEscape c (EQuote q)) token true
          else read_tokens cs' (SQuote q) (push token c) true
      end
  | SEscape e back =>
      match cs with
      | [] => Err (ValueError "No escaped character")
      | c :: cs' =>
          match back with
          | EQuote q =>
              let token' :=
                if negb (bool_decide (c = e)) && negb (bool_decide (c = q))
                then push token e else token in
              read_tokens cs' (SQuote q) (push token' c) quoted
          | EWord => read_tokens cs' SWord (push token c) quoted
          end
      end
  | SWord =>
      match cs with
      | [] => Ok (emit token quoted)
      | c :: cs' =>
          if whitespace c then
            if negb (bool_decide (token = EmptyString)) || quoted
            then res_bind (read_tokens cs' SSpace EmptyString false)
                   (λ ts, Ok (token :: ts))
            else read_tokens cs' SSpace token quoted
          else if quotes c then read_tokens cs' (SQuote c) token quoted
          else if escape c then read_tokens cs' (SEscape c EWord) token quoted
          else read_tokens cs' SWord (push token c) quoted
      end
  end.

Definition split (s : string) : Result (list string) :=
  read_tokens (chars s) SSpace EmptyString false.

End Shlex.

(** ** [repr] of a [list] of [str] (Python built-ins)

    What the f-string field [{args}] formats the arguments of a command
    as.  [repr] of a [str] encloses it in single quotes, or in double
    quotes when the text has a single quote and no double quote, and
    escapes the enclosing quote, the backslash, TAB, LF, CR and every
    character that is not printable. *)

(** [str.isprintable] on one character. *)
Definition py_isprintable (c : ascii) : bool :=
  let n := Ascii.nat_of_ascii c in
  ((32 <=? n) && (n <=? 126)) || ((161 <=? n) && negb (n =? 173)).

Definition hex_digit (n : nat) : ascii :=
  nth n (chars "0123456789abcdef") "0"%char.

Definition repr_quote (cs : list ascii) : ascii :=
  if bool_decide ("'"%char ∈ cs) && negb (bool_decide (Shlex.dquote ∈ cs))
  then Shlex.dquote else "'"%char.

Definition repr_char (quote c : ascii) : list ascii :=
  let n := Ascii.nat_of_ascii c in
  if bool_decide (c = quote) || bool_decide (c = "\"%char) then ["\"; c]%char
  else if n =? 9 then ["\"; "t"]%char
  else if n =? 10 then ["\"; "n"]%char
  else if n =? 13 then ["\"; "r"]%char
  else if py_isprintable c then [c]
  else ["\"; "x"; hex_digit (n / 16); hex_digit (n mod 16)]%char.

Definition repr_str (s : string) : string :=
  let quote := repr_quote (chars s) in
  str ([quote] ++ concat (repr_char quote <$> chars s) ++ [quote]).

Fixpoint join_commas (parts : list string) : string :=
  match parts with
  | [] => EmptyString
  | [p] => p
  | p :: ps => p +:+ ", " +:+ join_commas ps
  end.

Definition repr_list (l : list string) : string :=
  "[" +:+ join_commas (repr_str <$> l) +:+ "]".

(** ** parse_command.py *)

Abbreviation CommandWord := string (only parsing).
Abbreviation CommandArguments := (list string) (only parsing).

Record Command : Type := mkCommand {
  command_word : CommandWord;
  arguments : CommandArguments;
}.

Definition parse_command (line : string) : Result Command :=
  res_bind (Shlex.split (strip line)) (λ shell_command,
    match shell_command with
    | [] => Err (IndexError "list index out of range")
    | word :: args => Ok (mkCommand word args)
    end).

(** ** repl/match_based/matchers.py *)

(** A matcher object: [__call__] and [__str__]. *)
Record Matcher : Type := mkMatcher {
  matches : CommandWord → CommandArguments → bool;
  describe : string;
}.

Definition match_on_cmd (expected_cmd : string) : Matcher :=
  {| matches cmd _args := bool_decide (cmd = expected_cmd);
     describe := "command word == '" +:+ expected_cmd +:+ "'" |}.

(** [' '.join(expected_cmd)] *)
Fixpoint join_spaces (parts : list string) : string :=
  match parts with
  | [] => EmptyString
  | [p] => p
  | p :: ps => p +:+ " " +:+ join_spaces ps
  end.

Definition match_on_cmd_starts_with (expected_cmd : list string) : Matcher :=
  {| matches cmd args :=
       let entire_cmd := [cmd] ++ args in
       let parts_to_match := take (length expected_cmd) entire_cmd in
       bool_decide (parts_to_match = expected_cmd);
     describe := "command starts with '" +:+ join_spaces expected_cmd +:+ "'" |}.

(** ** Coroutines over a mutable state

    An [async def] (or a plain method) that works on the state [S] either
    returns a value, raises, or stays suspended in an [await] on input that
    the finite input script does not provide. *)
Inductive Outcome (S A : Type) : Type :=
| Returned (a : A) (s : S)
| Raised (e : exn) (s : S)
| Waiting (s : S).
Arguments Returned {S A} a s.
Arguments Raised {S A} e s.
Arguments Waiting {S A} s.

Definition M (S A : Type) : Type := S → Outcome S A.

Global Instance M_ret {S} : MRet (M S) := λ A a s, Returned a s.
Global Instance M_bind {S} : MBind (M S) := λ A B k c s,
  match c s with
  | Returned a s' => k a s'
  | Raised e s' => Raised e s'
  | Waiting s' => Waiting s'
  end.

Definition raise {S A} (e : exn) : M S A := λ s, Raised e s.
Definition get {S} : M S S := λ s, Returned s s.
Definition modify {S} (f : S → S) : M S unit := λ s, Returned () (f s).

(** ** client.py *)

(** What [process.stdin.readline()] delivers next. *)
Inductive StdinEvent : Type :=
| Line (text : string)
| ReadFails (e : exn).

(** A [Client] together with the [asyncssh] process it wraps: the script of
    its stdin, the texts written to its stdout (oldest first) and the
    calls made to [process.channel.set_echo]. *)
Record Client : Type := mkClient {
  echo : bool;
  line_mode : bool;
  stdin : list StdinEvent;
  stdout : list string;
  channel_set_echo : list bool;
}.

Module Client.

(** [write(text)] with the default [file] ([process.stdout]). *)
Definition write (text : string) : M Client unit :=
  modify (λ c, mkClient (echo c) (line_mode c) (stdin c)
                 (stdout c ++ [text]) (channel_set_echo c)).

Definition writeln (text : string) : M Client unit :=
  write (text +:+ String (ascii_of_nat 10) EmptyString).

Definition set_echo (echo' : bool) : M Client bool :=
  self ← get;
  let old_value := echo self in
  (if negb (eqb echo' (echo self))
   then modify (λ c, mkClient echo' (line_mode c) (stdin c) (stdout c)
                       (channel_set_echo c ++ [echo']))
   else mret ());;
  mret old_value.

Definition readline : M Client string := λ c,
  match stdin c with
  | [] => Waiting c
  | ev :: rest =>
      let c' := mkClient (echo c) (line_mode c) rest (stdout c)
                  (channel_set_echo c) in
      match ev with
      | Line text => Returned text c'
      | ReadFails e => Raised e c'
      end
  end.

Definition prompt (text : string) (echo' : bool) : M Client string :=
  write text;;
  previous_echo ← set_echo echo';
  result ← readline;
  set_echo previous_echo;;
  mret (rstrip result).

End Client.

(** ** repl/repl.py *)

(** The REPL classes of a program: [clazz.__name__] and the subclass
    relation that [isinstance] consults. *)
Class ReplClasses (ReplClass : Type) : Type := {
  class_name : ReplClass → string;
  issubclass : ReplClass → ReplClass → bool;
}.

(** REPL instances are referred to by their position in the store. *)
Abbreviation ReplId := nat (only parsing).

Section ReplDefs.
Context `{ReplClasses ReplClass}.

(** The attributes set by [Repl.__init__], and the object's class.  The
    [client] attribute is the one client of the session, kept in [World]. *)
Record Repl : Type := mkRepl {
  exit_command : option string;
  prompt : string;
  running : bool;
  parent_repl : option ReplId;
  clazz : ReplClass;
}.

(** The calls of [print], one constructor per call site. *)
Inductive Diag : Type :=
| DLine (line : string)
    (* >>> {line} *)
| DUnhandled (cmd : CommandWord) (args : CommandArguments)
    (* unhandled command '{cmd}': {args} *)
| DExitingUntil (name : string)
    (* exiting repls until repl of type '{clazz.__name__}' *)
| DExitingRepl (name : string)
    (*   exiting repl '{current.__class__.__name__}' *)
| DHandleCommand (name : string) (cmd : CommandWord) (args : CommandArguments)
    (* {self.__class__.__name__}.handle_command: cmd='{cmd}' args={args} *)
| DTryingMatcher (matcher : string)
    (*   trying matcher: {matcher} *)
| DMatched.
    (*     matched *)

(** One session: the client, the REPL objects created so far and what
    has been printed (oldest first). *)
Record World : Type := mkWorld {
  client : Client;
  heap : list Repl;
  printed : list Diag;
}.

Definition print (d : Diag) : M World unit :=
  modify (λ w, mkWorld (client w) (heap w) (printed w ++ [d])).

(** A method of [self.client] called from a REPL. *)
Definition on_client {A} (c : M Client A) : M World A := λ w,
  match c (client w) with
  | Returned a c' => Returned a (mkWorld c' (heap w) (printed w))
  | Raised e c' => Raised e (mkWorld c' (heap w) (printed w))
  | Waiting c' => Waiting (mkWorld c' (heap w) (printed w))
  end.

Definition isinstance (obj : Repl) (cls : ReplClass) : bool :=
  issubclass (clazz obj) cls.

Definition set_running (b : bool) (obj : Repl) : Repl :=
  mkRepl (exit_command obj) (prompt obj) b (parent_repl obj) (clazz obj).

(** [self.running = False] *)
Definition exit_heap (self : ReplId) (h : list Repl) : list Repl :=
  alter (set_running false) self h.

Definition exit (self : ReplId) : M World unit :=
  modify (λ w, mkWorld (client w) (exit_heap self (heap w)) (printed w)).

(** The [while] loop of [exit_to_repl_class].  Each turn takes one unit
    of [fuel]; [None] means that the fuel ran out.  An identifier outside
    the store denotes no object and ends the walk like [None] does. *)
Fixpoint exit_to_repl_class_loop (fuel : nat) (cls : ReplClass)
    (current : option ReplId) (w : World) : option World :=
  match current with
  | None => Some w
  | Some id =>
      match heap w !! id with
      | None => Some w
      | Some obj =>
          if isinstance obj cls then Some w
          else
            match fuel with
            | O => None
            | S fuel' =>
                let w1 := mkWorld (client w) (heap w)
                            (printed w ++ [DExitingRepl (class_name (clazz obj))]) in
                let w2 := mkWorld (client w1) (exit_heap id (heap w1)) (printed w1) in
                exit_to_repl_class_loop fuel' cls (parent_repl obj) w2
            end
      end
  end.

Definition exit_to_repl_class (fuel : nat) (self : ReplId) (cls : ReplClass)
    (w : World) : option World :=
  let w0 := mkWorld (client w) (heap w)
              (printed w ++ [DExitingUntil (class_name cls)]) in
  exit_to_repl_class_loop fuel cls (Some self) w0.

(** [repl_class(self.client, prompt, parent_repl=self, **kwargs)] for a
    class that keeps [Repl.__init__]; [exit_command'] is the value that
    reaches [Repl.__init__] (['exit'] when no one passes it).  The new
    object is placed at the end of the store.  The first branch is for an
    identifier outside the store, which denotes no object. *)
Definition enter_repl (self : ReplId) (prompt' : string)
    (repl_class : option ReplClass) (exit_command' : option string)
    : M World ReplId := λ w,
  match heap w !! self with
  | None => Raised (Exception "no such REPL") w
  | Some obj =>
      let repl_class := default (clazz obj) repl_class in
      let new := mkRepl exit_command' prompt' true (Some self) repl_class in
      Returned (length (heap w)) (mkWorld (client w) (heap w ++ [new]) (printed w))
  end.

(** A bound [handle_command]-like method. *)
Definition Handler : Type := CommandWord → CommandArguments → M World unit.

(** [Repl.handle_command], the base implementation. *)
Definition Repl_handle_command : Handler :=
  λ cmd args, print (DUnhandled cmd args).

(** One turn of the [while self.running] loop of [Repl.run], with
    [handle_command] the method that [self.handle_command] resolves to
    for each object. *)
Definition run_iteration (handle_command : ReplId → Handler)
    (self : ReplId) (obj : Repl) : M World unit :=
  line ← on_client (Client.prompt (prompt obj) true);
  let line := strip line in
  if bool_decide (line = EmptyString) then mret ()
  else
    match parse_command line with
    | Err e => raise e
    | Ok (mkCommand command_word args) =>
        print (DLine line);;
        match exit_command obj with
        | Some exit_word =>
            if bool_decide (command_word = exit_word) then exit self
            else handle_command self command_word args
        | None => handle_command self command_word args
        end
    end.

(** [Repl.run]: [None] when [fuel] turns were not enough.  The first
    branch is for an identifier outside the store, which denotes no
    object; no call on a REPL reaches it. *)
Fixpoint run (fuel : nat) (handle_command : ReplId → Handler)
    (self : ReplId) (w : World) : option (Outcome World unit) :=
  match heap w !! self with
  | None => Some (Raised (Exception "no such REPL") w)
  | Some obj =>
      if running obj then
        match fuel with
        | O => None
        | S fuel' =>
            match run_iteration handle_command self obj w with
            | Returned _ w' => run fuel' handle_command self w'
            | o => Some o
            end
        end
      else Some (Returned () w)
  end.

End ReplDefs.

Arguments Repl : clear implicits.
Arguments World : clear implicits.
Arguments Handler : clear implicits.

(** ** repl/match_based/match_based.py *)

Section MatchBasedDefs.
Context `{ReplClasses ReplClass}.

Record KnownMatcher : Type := mkKnownMatcher {
  matcher : Matcher;
  handler : Handler ReplClass;
}.

(** [MatchBasedRepl.unknown_command], the base implementation. *)
Definition unknown_command : Handler ReplClass :=
  λ cmd args, print (DUnhandled cmd args).

(** The [for ... else] of [handle_command] over the rest of
    [self.matchers]; [self_unknown_command] is what
    [self.unknown_command] resolves to. *)
Fixpoint handle_command_loop (matchers : list KnownMatcher)
    (self_unknown_command : Handler ReplClass) (cmd : CommandWord)
    (args : CommandArguments) : M (World ReplClass) unit :=
  match matchers with
  | [] => self_unknown_command cmd args
  | mkKnownMatcher matcher handler :: rest =>
      print (DTryingMatcher (describe matcher));;
      if matches matcher cmd args then
        print DMatched;;
        handler cmd args
      else handle_command_loop rest self_unknown_command cmd args
  end.

(** [MatchBasedRepl.handle_command] of an object of class [cls] whose
    [matchers] attribute holds [self_matchers]. *)
Definition handle_command (cls : ReplClass) (self_matchers : list KnownMatcher)
    (self_unknown_command : Handler ReplClass) : Handler ReplClass :=
  λ cmd args,
    print (DHandleCommand (class_name cls) cmd args);;
    handle_command_loop self_matchers self_unknown_command cmd args.

(** [self.matchers.append(KnownMatcher(matcher, handler))] *)
Definition _register_handler (self_matchers : list KnownMatcher)
    (matcher : Matcher) (handler : Handler ReplClass) : list KnownMatcher :=
  self_matchers ++ [mkKnownMatcher matcher handler].

End MatchBasedDefs.

Arguments KnownMatcher : clear implicits.

(** ** repl/command_based.py *)

(** [sorted(l, key=...)] and [list.sort(key=...)]: the stable sort, here by
    insertion from the right. *)
Section Sorted.
Context {A K : Type} (le : K → K → bool) (key : A → K).

Fixpoint insert_sorted (x : A) (l : list A) : list A :=
  match l with
  | [] => [x]
  | y :: l' => if le (key x) (key y) then x :: l else y :: insert_sorted x l'
  end.

Definition sorted (l : list A) : list A := foldr insert_sorted [] l.
End Sorted.

Section CommandBasedDefs.
Context `{ReplClasses ReplClass}.

(** A handler function of a command: it also receives the REPL. *)
Definition CommandHandler : Type :=
  ReplId → CommandWord → CommandArguments → M (World ReplClass) unit.

Record HandlerData : Type := mkHandlerData {
  hd_matcher : Matcher;
  hd_order : option Z;
}.

(** An attribute of a class: whether it is callable, its [_handler]
    attribute when it has one, and what calling it does. *)
Record Member : Type := mkMember {
  callable : bool;
  handler_attr : option HandlerData;
  call : CommandHandler;
}.

(** The [handler] decorator: [setattr(fn, '_handler', HandlerData(...))]. *)
Definition handler_decorator (order : option Z) (matcher : Matcher)
    (fn : Member) : Member :=
  mkMember (callable fn) (Some (mkHandlerData matcher order)) (call fn).

(** A class derived from [Command]: its attributes with their names, in
    the order of their declaration (inherited ones included), and what
    its three methods do.  [register_handlers] is given by the calls
    [register(matcher, handler)] that it makes, in order, when it does not
    raise. *)
Record CommandClass : Type := mkCommandClass {
  attributes : list (string * Member);
  get_name : option string;
  get_help_description : option string;
  register_handlers : Result (list (Matcher * CommandHandler));
}.

(** [getattr(clazz, key)]: the latest binding of the name. *)
Definition getattr (attrs : list (string * Member)) (key : string)
    : option Member :=
  snd <$> last (filter (λ entry, entry.1 = key) attrs).

(** [dir(clazz)]: the attribute names, without repetition, sorted. *)
Definition dir (attrs : list (string * Member)) : list string :=
  sorted String.leb id (remove_dups (attrs.*1)).

(** [inspect.getmembers(clazz, predicate)] (Python standard library): the
    [(name, value)] pairs of the members that satisfy the predicate,
    sorted by name. *)
Definition getmembers (attrs : list (string * Member))
    (predicate : Member → bool) : list (string * Member) :=
  let results :=
    omap (λ key, value ← getattr attrs key;
                 if predicate value then Some (key, value) else None)
         (dir attrs) in
  sorted String.leb fst results.

Definition _predicate (member : Member) : bool :=
  callable member && bool_decide (is_Some (handler_attr member)).

Definition is_not_None {X} (o : option X) : bool :=
  match o with Some _ => true | None => false end.

(** The key [entry[2].order] of the sort, used when no order is [None]. *)
Definition order_key (entry : string * Member * HandlerData) : Z :=
  default 0%Z (hd_order entry.2).

(** A method that [_Wrapped] defines itself: callable, without a
    [_handler] attribute. *)
Definition _Wrapped_method : Member :=
  mkMember true None (λ _ _ _, mret ()).

(** The attributes of [class _Wrapped(clazz)]: those of [clazz], and its
    own three methods, which come first in the lookup.  Instances are
    taken to add no attribute of their own under these or the handlers'
    names. *)
Definition _Wrapped_attributes (clazz : CommandClass)
    : list (string * Member) :=
  attributes clazz
  ++ [("get_name", _Wrapped_method);
      ("get_help_description", _Wrapped_method);
      ("register_handlers", _Wrapped_method)].

(** The [for method_name in handler_method_names] loop: the calls of
    [register] that it makes, unless a [getattr] raises. *)
Fixpoint register_methods (attrs : list (string * Member))
    (handler_method_names : list string)
    : Result (list (Matcher * CommandHandler)) :=
  match handler_method_names with
  | [] => Ok []
  | method_name :: rest =>
      match getattr attrs method_name with
      | None => Err (AttributeError method_name)
      | Some method =>
          match handler_attr method with
          | None => Err (AttributeError "_handler")
          | Some handler_data =>
              res_bind (register_methods attrs rest) (λ calls,
                Ok ((hd_matcher handler_data, call method) :: calls))
          end
      end
  end.

(** [_Wrapped.register_handlers]: the calls of the decorated class, then
    one call per recorded method name, looked up on the wrapped object. *)
Definition _Wrapped_register_handlers (clazz : CommandClass)
    (handler_method_names : list string)
    : Result (list (Matcher * CommandHandler)) :=
  res_bind (register_handlers clazz) (λ inherited_calls,
    res_bind (register_methods (_Wrapped_attributes clazz) handler_method_names)
      (λ calls, Ok (inherited_calls ++ calls))).

(** The methods decorated with [handler], with their meta-data:
    [(method_name, method, handler_data)] for each member found by
    [inspect.getmembers]. *)
Definition handlers_with_data (clazz : CommandClass)
    : list (string * Member * HandlerData) :=
  let handler_methods := getmembers (attributes clazz) _predicate in
  omap (λ '(method_name, method),
          handler_data ← handler_attr method;
          Some (method_name, method, handler_data))
       handler_methods.

(** What [_decorator] computes before it builds [_Wrapped]: the entries
    in their final order, or the exception. *)
Definition command_entries (clazz : CommandClass)
    : Result (list (string * Member * HandlerData)) :=
  let handlers_with_data := handlers_with_data clazz in
  let all_handlers_order_value :=
    map (λ entry, hd_order entry.2) handlers_with_data in
  let any_have_order := existsb is_not_None all_handlers_order_value in
  let all_have_order := forallb is_not_None all_handlers_order_value in
  if all_have_order then
    Ok (sorted Z.leb order_key handlers_with_data)
  else if any_have_order then
    Err (Exception
           "if you mark any handler with an order, you must mark all with an order")
  else Ok handlers_with_data.

(** The [command] decorator applied to [clazz]. *)
Definition command (name help_text : string) (clazz : CommandClass)
    : Result CommandClass :=
  res_bind (command_entries clazz) (λ handlers_with_data,
    let handler_method_names := map (λ entry, entry.1.1) handlers_with_data in
    Ok (mkCommandClass (_Wrapped_attributes clazz) (Some name) (Some help_text)
          (_Wrapped_register_handlers clazz handler_method_names))).

(** [_wrapped_register] called with each of [calls] in turn. *)
Definition _wrapped_register_all (self : ReplId)
    (self_matchers : list (KnownMatcher ReplClass))
    (calls : list (Matcher * CommandHandler)) : list (KnownMatcher ReplClass) :=
  foldl (λ self_matchers '(matcher, handler_fn),
           _register_handler self_matchers matcher (handler_fn self))
        self_matchers calls.

(** [CommandBasedRepl.register_handlers] run by
    [MatchBasedRepl.__init__] on the fresh object [self]: the dispatch
    list [self.matchers] that results from [self.commands], unless the
    [register_handlers] of a command raises. *)
Definition CommandBasedRepl_matchers (self : ReplId)
    (commands : list CommandClass) : Result (list (KnownMatcher ReplClass)) :=
  foldl (λ so_far registered_command,
           res_bind so_far (λ self_matchers,
             res_bind (register_handlers registered_command) (λ calls,
               Ok (_wrapped_register_all self self_matchers calls))))
        (Ok []) commands.

End CommandBasedDefs.

Arguments CommandHandler : clear implicits.
Arguments Member : clear implicits.
Arguments CommandClass : clear implicits.

(** ** examples/server.py: the REPL classes of the example server *)

Inductive ServerClass : Type :=
| ReplC
| MatchBasedReplC
| CommandBasedReplC
| CiscoRepl
| TopLevelRepl
| ConfigureTerminalRepl.

Global Instance ServerClass_eq_dec : EqDecision ServerClass.
Proof. solve_decision. Defined.

(** The direct base class; [Repl] derives from [object] only. *)
Definition server_base (cls : ServerClass) : option ServerClass :=
  match cls with
  | ReplC => None
  | MatchBasedReplC => Some ReplC
  | CommandBasedReplC => Some MatchBasedReplC
  | CiscoRepl => Some CommandBasedReplC
  | TopLevelRepl => Some CiscoRepl
  | ConfigureTerminalRepl => Some CiscoRepl
  end.

Fixpoint server_issubclass_upto (depth : nat) (cls target : ServerClass) : bool :=
  bool_decide (cls = target)
  || match depth, server_base cls with
     | S depth', Some base => server_issubclass_upto depth' base target
     | _, _ => false
     end.

Global Instance server_classes : ReplClasses ServerClass := {|
  class_name cls :=
    match cls with
    | ReplC => "Repl"
    | MatchBasedReplC => "MatchBasedRepl"
    | CommandBasedReplC => "CommandBasedRepl"
    | CiscoRepl => "CiscoRepl"
    | TopLevelRepl => "TopLevelRepl"
    | ConfigureTerminalRepl => "ConfigureTerminalRepl"
    end;
  issubclass := server_issubclass_upto 5;
|}.

(** ** examples/server.py: two of its commands and some sessions

    [handle_configure_terminal] is cut down to what it does for a REPL
    that is not enabled. *)

(** A method inherited from [Command]: callable, not decorated. *)
Definition plain_method : Member ServerClass :=
  mkMember true None (λ _ _ _, mret ()).

(** [Command.register_handlers]: [pass]. *)
Definition Command_register_handlers
    : Result (list (Matcher * CommandHandler ServerClass)) :=
  Ok [].

Definition Command_attributes : list (string * Member ServerClass) :=
  [("get_name", plain_method);
   ("get_help_description", plain_method);
   ("register_handlers", plain_method)].

Definition writes (text : string) : Member ServerClass :=
  mkMember true None (λ _ _ _, on_client (Client.writeln text)).

Definition handle_configure_terminal : Member ServerClass :=
  handler_decorator (Some 1%Z)
    (match_on_cmd_starts_with ["configure"; "terminal"])
    (writes "% Yo you need to be enabled, dummy!").

Definition handle_configure : Member ServerClass :=
  handler_decorator (Some 2%Z) (match_on_cmd "configure")
    (writes "% Wah you suck at this, try 'configure terminal'").

(** [class ConfigureCommand(Command)], before [@command] is applied. *)
Definition ConfigureCommand : CommandClass ServerClass :=
  mkCommandClass
    (Command_attributes
     ++ [("handle_configure_terminal", handle_configure_terminal);
         ("handle_configure", handle_configure)])
    None None Command_register_handlers.

(** A method that writes a line ending in the [args] it is called with. *)
Definition writes_with_args (text : string) : Member ServerClass :=
  mkMember true None
    (λ _ _ args, on_client (Client.writeln (text +:+ repr_list args))).

Definition handle_snmp : Member ServerClass :=
  handler_decorator None (match_on_cmd "snmp")
    (writes_with_args "changed some SNMP things with args=").

Definition handle_no_snmp : Member ServerClass :=
  handler_decorator None (match_on_cmd_starts_with ["no"; "snmp"])
    (writes_with_args "disabled some SNMP things with args=").

(** [class SnmpCommand(Command)], before [@command] is applied. *)
Definition SnmpCommand : CommandClass ServerClass :=
  mkCommandClass
    (Command_attributes
     ++ [("handle_snmp", handle_snmp); ("handle_no_snmp", handle_no_snmp)])
    None None Command_register_handlers.

(** [ConfigureCommand] with the [order] of [handle_configure] left out. *)
Definition handle_configure_no_order : Member ServerClass :=
  handler_decorator None (match_on_cmd "configure")
    (writes "% Wah you suck at this, try 'configure terminal'").

Definition MixedCommand : CommandClass ServerClass :=
  mkCommandClass
    (Command_attributes
     ++ [("handle_configure_terminal", handle_configure_terminal);
         ("handle_configure", handle_configure_no_order)])
    None None Command_register_handlers.

(** [ConfigureCommand] with [handle_configure] declared at [order=1], the
    order of [handle_configure_terminal]. *)
Definition handle_configure_same_order : Member ServerClass :=
  handler_decorator (Some 1%Z) (match_on_cmd "configure")
    (writes "% Wah you suck at this, try 'configure terminal'").

Definition TiedCommand : CommandClass ServerClass :=
  mkCommandClass
    (Command_attributes
     ++ [("handle_configure_terminal", handle_configure_terminal);
         ("handle_configure", handle_configure_same_order)])
    None None Command_register_handlers.

(** A command whose only handler method bears the name of a method that
    [_Wrapped] defines itself. *)
Definition ShadowedCommand : CommandClass ServerClass :=
  mkCommandClass
    (Command_attributes
     ++ [("get_name",
          handler_decorator None (match_on_cmd "name") (writes "a name"))])
    None None Command_register_handlers.

(** A line as [readline] returns it, with its line feed. *)
Definition typed (text : string) : StdinEvent :=
  Line (text +:+ String (ascii_of_nat 10) EmptyString).

(** A fresh session at the top level, the user having typed [lines]. *)
Definition top_level_session (exit_command' : option string)
    (lines : list string) : World ServerClass :=
  mkWorld (mkClient true true (typed <$> lines) [] [])
    [mkRepl exit_command' "hostname> " true None TopLevelRepl] [].

(** The top-level REPL (0), and two nested configuration REPLs (1, 2). *)
Definition nested_session : World ServerClass :=
  mkWorld (mkClient true true [] [] [])
    [mkRepl None "hostname> " true None TopLevelRepl;
     mkRepl None "hostname(config)> " true (Some 0) ConfigureTerminalRepl;
     mkRepl None "hostname(config)> " true (Some 1) ConfigureTerminalRepl]
    [].

(** A dispatch list whose single matcher accepts the word [exit] and whose
    handler raises when it is called. *)
Definition exit_matchers : list (KnownMatcher ServerClass) :=
  [mkKnownMatcher (match_on_cmd "exit")
     (λ _ _, raise (Exception "the handler was called"))].

(** An overridden [unknown_command] that raises when it is called. *)
Definition raising_unknown_command : Handler ServerClass :=
  λ _ _, raise (Exception "the fallback was called").

(** The dispatch list of a REPL whose commands are the decorated
    [SnmpCommand] and [ConfigureCommand]. *)
Definition example_matchers : list (KnownMatcher ServerClass) :=
  match
    res_bind (command "snmp" "change SNMP settings" SnmpCommand) (λ snmp,
      res_bind (command "configure" "configure settings" ConfigureCommand)
        (λ configure, CommandBasedRepl_matchers 0 [snmp; configure]))
  with
  | Ok self_matchers => self_matchers
  | Err _ => []
  end.

(** A command class without any handler method. *)
Definition BareCommand : CommandClass ServerClass :=
  mkCommandClass Command_attributes None None Command_register_handlers.

(** A session whose only stdin event is a failing read. *)
Definition broken_session : World ServerClass :=
  mkWorld (mkClient true true [ReadFails (ConnectionLost "connection lost")] [] [])
    [mkRepl None "hostname> " true None TopLevelRepl] [].

(** ** Vocabulary of the statements *)

(** The client once [prompt(text, echo)] has returned, [rest] being what is
    left of its stdin. *)
Definition prompted (text : string) (echo' : bool) (rest : list StdinEvent)
    (c : Client) : Client :=
  mkClient (echo c) (line_mode c) rest (stdout c ++ [text])
    (channel_set_echo c ++ (if eqb echo' (echo c) then [] else [echo'; echo c])).

(** The client when the read of [prompt(text, echo)] has raised or is
    still pending: the echo has been switched and not switched back. *)
Definition prompt_interrupted (text : string) (echo' : bool)
    (rest : list StdinEvent) (c : Client) : Client :=
  mkClient echo' (line_mode c) rest (stdout c ++ [text])
    (channel_set_echo c ++ (if eqb echo' (echo c) then [] else [echo'])).

(** The walk of [exit_to_repl_class]: following [parent_repl] from
    [current] visits the objects [ids], in this order, and arrives at
    [stop] ([None] above the top-level REPL). *)
Inductive parent_path {ReplClass} (h : list (Repl ReplClass))
    : option ReplId → list ReplId → option ReplId → Prop :=
| parent_path_here current : parent_path h current [] current
| parent_path_up id obj ids stop :
    h !! id = Some obj →
    parent_path h (parent_repl obj) ids stop →
    parent_path h (Some id) (id :: ids) stop.

(** The object [id] exists and [isinstance(id, cls)] is [b]. *)
Definition is_instance `{ReplClasses ReplClass} (h : list (Repl ReplClass))
    (cls : ReplClass) (b : bool) (id : ReplId) : Prop :=
  ∃ obj, h !! id = Some obj ∧ isinstance obj cls = b.

(** Where the walk ends: above the top, or on an instance of [cls]. *)
Definition walk_stops `{ReplClasses ReplClass} (h : list (Repl ReplClass))
    (cls : ReplClass) (stop : option ReplId) : Prop :=
  match stop with
  | None => True
  | Some target => is_instance h cls true target
  end.

(** [exit()] called on each of [ids] in turn. *)
Definition exit_all {ReplClass} (ids : list ReplId) (h : list (Repl ReplClass))
    : list (Repl ReplClass) :=
  foldl (λ h id, exit_heap id h) h ids.

(** The lines printed while the objects [ids] are exited. *)
Definition exiting `{ReplClasses ReplClass} (h : list (Repl ReplClass))
    (ids : list ReplId) : list Diag :=
  omap (λ id, (λ obj, DExitingRepl (class_name (clazz obj))) <$> h !! id) ids.

(** [x] comes no later than [y] in the order of the keys. *)
Definition key_le {A K} (le : K → K → bool) (key : A → K) (x y : A) : Prop :=
  le (key x) (key y) = true.

(** [name] is a handler method of the class: its binding [method] is
    callable and carries the [_handler] data [data]. *)
Definition handler_method {ReplClass} (attrs : list (string * Member ReplClass))
    (name : string) (method : Member ReplClass) (data : HandlerData) : Prop :=
  getattr attrs name = Some method
  ∧ callable method = true
  ∧ handler_attr method = Some data.

(** The same class with its attributes declared as [attrs]. *)
Definition with_attributes {ReplClass} (clazz : CommandClass ReplClass)
    (attrs : list (string * Member ReplClass)) : CommandClass ReplClass :=
  mkCommandClass attrs (get_name clazz) (get_help_description clazz)
    (register_handlers clazz).

(** The call [register(handler_data.matcher, method)] made for an entry. *)
Definition entry_call {ReplClass}
    (entry : string * Member ReplClass * HandlerData)
    : Matcher * CommandHandler ReplClass :=
  (hd_matcher entry.2, call entry.1.2).

(** The dispatch entry that [_wrapped_register] appends for such a call
    on the REPL [self]. *)
Definition wrapped {ReplClass} (self : ReplId)
    (registered : Matcher * CommandHandler ReplClass) : KnownMatcher ReplClass :=
  mkKnownMatcher registered.1 (registered.2 self).

(** The message of the exception raised by [command]. *)
Definition mixed_order_error : exn :=
  Exception "if you mark any handler with an order, you must mark all with an order".

(** The method names of the entries. *)
Definition entry_names {ReplClass}
    (entries : list (string * Member ReplClass * HandlerData)) : list string :=
  map (λ entry, entry.1.1) entries.

(** The class [_Wrapped] built for [clazz] when its handler entries, in
    their final order, are [entries]. *)
Definition wrapped_class {ReplClass} (name help_text : string)
    (clazz : CommandClass ReplClass)
    (entries : list (string * Member ReplClass * HandlerData))
    : CommandClass ReplClass :=
  mkCommandClass (_Wrapped_attributes clazz) (Some name) (Some help_text)
    (_Wrapped_register_handlers clazz (entry_names entries)).

(** The names of the methods that [_Wrapped] defines itself. *)
Definition _Wrapped_method_names : list string :=
  ["get_name"; "get_help_description"; "register_handlers"].

(** The lines printed while the matchers [ms] are tried in turn. *)
Definition trying {ReplClass} (ms : list (KnownMatcher ReplClass)) : list Diag :=
  map (λ km, DTryingMatcher (describe (matcher km))) ms.

(** The matcher of [km] does not accept [(cmd, args)]. *)
Definition rejects {ReplClass} (cmd : string) (args : list string)
    (km : KnownMatcher ReplClass) : Prop :=
  matches (matcher km) cmd args = false.

(** ** client.py: [Client.enter_repl] *)

(** [repl_class(self, prompt, **kwargs)] for a class that keeps
    [Repl.__init__]: a REPL without parent.  [repl_class] is given (the
    source defaults it to [Repl]), [exit_command'] is the value that
    reaches [Repl.__init__]. *)
Definition Client_enter_repl {ReplClass} (prompt' : string)
    (repl_class : ReplClass) (exit_command' : option string)
    : M (World ReplClass) ReplId := λ w,
  let new := mkRepl exit_command' prompt' true None repl_class in
  Returned (length (heap w)) (mkWorld (client w) (heap w ++ [new]) (printed w)).

(** ** Vocabulary of the further statements *)

(** A character that the tokenizer and [strip] treat as part of a word. *)
Definition plain (c : ascii) : bool :=
  negb (py_isspace c) && negb (Shlex.quotes c) && negb (Shlex.escape c).

(** A token made of such characters only, and not empty. *)
Definition plain_word (word : string) : Prop :=
  word ≠ EmptyString ∧ Forall (λ c, plain c = true) (chars word).

(** The string has no trailing whitespace. *)
Definition no_trailing_space (s : string) : Prop :=
  ∀ c, last (chars s) = Some c → py_isspace c = false.

(** Parents were created before their children: every [parent_repl]
    refers to an earlier object of the store. *)
Definition heap_wf {ReplClass} (h : list (Repl ReplClass)) : Prop :=
  ∀ i obj p, h !! i = Some obj → parent_repl obj = Some p → p < i.

(** The matcher of [km] accepts [(cmd, args)]. *)
Definition accepts {ReplClass} (cmd : string) (args : list string)
    (km : KnownMatcher ReplClass) : Prop :=
  matches (matcher km) cmd args = true.

(** Entries ordered by their declared order, and by method name among
    those of equal order. *)
Definition order_then_name {ReplClass}
    (e1 e2 : string * Member ReplClass * HandlerData) : Prop :=
  (order_key e1 < order_key e2)%Z
  ∨ (order_key e1 = order_key e2 ∧ String.le e1.1.1 e2.1.1).


(** The order of the keys, then [R] among equal keys. *)
Definition key_then {A} (key : A → Z) (R : relation A) (x y : A) : Prop :=
  (key x < key y)%Z ∨ (key x = key y ∧ R x y).

(** The body of the loop of [CommandBasedRepl.register_handlers]. *)
Definition register_command_handlers {ReplClass} (self : ReplId)
    (so_far : Result (list (KnownMatcher ReplClass)))
    (registered_command : CommandClass ReplClass)
    : Result (list (KnownMatcher ReplClass)) :=
  res_bind so_far (λ self_matchers,
    res_bind (register_handlers registered_command) (λ calls,
      Ok (_wrapped_register_all self self_matchers calls))).

(** * Properties *)

(** ** The parser *)

Example parse_configure_terminal :
  parse_command "configure terminal foo"
  = Ok (mkCommand "configure" ["terminal"; "foo"]).
Proof. vm_compute. reflexivity. Qed.

Example parse_quoted_group :
  parse_command ("echo " +:+ String Shlex.dquote "a b" +:+ String Shlex.dquote " c")
  = Ok (mkCommand "echo" ["a b"; "c"]).
Proof. vm_compute. reflexivity. Qed.

(** ** Matchers *)

(** The doctests of the two matchers. *)
Example match_on_cmd_doc1 : matches (match_on_cmd "hello") "hello" [] = true.
Proof. reflexivity. Qed.
Example match_on_cmd_doc2 : matches (match_on_cmd "hello") "bye" [] = false.
Proof. reflexivity. Qed.
Example match_on_cmd_doc3 :
  matches (match_on_cmd "hello") "hello" ["some"; "args"] = true.
Proof. reflexivity. Qed.
Example starts_with_doc1 :
  matches (match_on_cmd_starts_with ["hello"]) "hello" [] = true.
Proof. reflexivity. Qed.
Example starts_with_doc2 :
  matches (match_on_cmd_starts_with ["hello"; "there"]) "hello" ["there"; "matey"]
  = true.
Proof. reflexivity. Qed.
Example starts_with_doc3 :
  matches (match_on_cmd_starts_with ["hello"]) "bye" [] = false.
Proof. reflexivity. Qed.
Example starts_with_doc4 :
  matches (match_on_cmd_starts_with ["hello"; "there"]) "hello" ["my"; "matey"]
  = false.
Proof. reflexivity. Qed.

(** The doctests of the two matchers. *)

(** C7: [match_on_cmd expected] accepts an input exactly when its command
    word is [expected], and its answer is the same for any two argument
    lists. *)
Theorem match_on_cmd_word_only (expected word : string) :
  (∀ args, matches (match_on_cmd expected) word args = true ↔ word = expected)
  ∧ (∀ a1 a2, matches (match_on_cmd expected) word a1
              = matches (match_on_cmd expected) word a2).
Proof.
  split.
  - intros args. cbn. apply bool_decide_eq_true.
  - intros a1 a2. reflexivity.
Qed.

Lemma take_app_enough {A} (n : nat) (l extra : list A) :
  n ≤ length l → take n (l ++ extra) = take n l.
Proof. intros Hn. by rewrite take_app_le. Qed.

(** C6: [match_on_cmd_starts_with expected] accepts [(word, args)] exactly
    when the first [length expected] elements of [word :: args] are
    [expected]; it rejects an input with fewer tokens than [expected]; and
    arguments after the first [length expected] tokens do not change its
    answer. *)
Theorem match_on_cmd_starts_with_prefix (expected : list string)
    (word : string) (args : list string) :
  (matches (match_on_cmd_starts_with expected) word args = true
   ↔ take (length expected) ([word] ++ args) = expected)
  ∧ (length ([word] ++ args) < length expected →
     matches (match_on_cmd_starts_with expected) word args = false)
  ∧ (∀ extra, length expected ≤ length ([word] ++ args) →
     matches (match_on_cmd_starts_with expected) word (args ++ extra)
     = matches (match_on_cmd_starts_with expected) word args).
Proof.
  split; [|split].
  - cbn. apply bool_decide_eq_true.
  - intros Hshort. cbn. apply bool_decide_eq_false. intros Heq.
    change ([word] ++ args) with (word :: args) in Hshort.
    apply (f_equal length) in Heq. rewrite length_take in Heq. lia.
  - intros extra Hlen. cbn. cbn in Hlen.
    change (word :: args ++ extra) with ((word :: args) ++ extra).
    by rewrite take_app_enough.
Qed.

Lemma match_on_cmd_starts_with_prefix_witness :
  matches (match_on_cmd_starts_with ["a"; "b"]) "a" ["b"; "c"] = true
  ∧ matches (match_on_cmd_starts_with ["a"; "b"]) "a" ["x"] = false
  ∧ matches (match_on_cmd_starts_with ["a"; "b"; "c"]) "a" ["b"] = false
  ∧ matches (match_on_cmd_starts_with ["a"; "b"]) "a" (["b"] ++ ["c"; "d"])
    = matches (match_on_cmd_starts_with ["a"; "b"]) "a" ["b"].
Proof.
  split; [|split; [|split]].
  - apply (proj1 (match_on_cmd_starts_with_prefix ["a"; "b"] "a" ["b"; "c"])).
    reflexivity.
  - reflexivity.
  - apply (proj1 (proj2 (match_on_cmd_starts_with_prefix
                           ["a"; "b"; "c"] "a" ["b"]))).
    cbn. lia.
  - apply (proj2 (proj2 (match_on_cmd_starts_with_prefix
                           ["a"; "b"] "a" ["b"]))).
    cbn. lia.
Defined.

(** ** Client *)

Example prompt_hides_password :
  Client.prompt "Password: " false
    (mkClient true true [Line "pass"] [] [])
  = Returned "pass" (mkClient true true [] ["Password: "] [false; true]).
Proof. vm_compute. reflexivity. Qed.


Lemma prompt_line (text : string) (e : bool) (c : Client) raw rest :
  stdin c = Line raw :: rest →
  Client.prompt text e c = Returned (rstrip raw) (prompted text e rest c).
Proof.
  destruct c as [e0 lm i o ch]. cbn. intros ->.
  destruct e, e0;
    unfold Client.prompt, Client.write, Client.set_echo, Client.readline,
      prompted, prompt_interrupted, mbind, M_bind, mret, M_ret, get, modify;
    cbn -[rstrip]; rewrite ?app_nil_r, <- ?(assoc_L (++)); reflexivity.
Qed.

Lemma prompt_read_fails (text : string) (e : bool) (c : Client) err rest :
  stdin c = ReadFails err :: rest →
  Client.prompt text e c = Raised err (prompt_interrupted text e rest c).
Proof.
  destruct c as [e0 lm i o ch]. cbn. intros ->.
  destruct e, e0;
    unfold Client.prompt, Client.write, Client.set_echo, Client.readline,
      prompted, prompt_interrupted, mbind, M_bind, mret, M_ret, get, modify;
    cbn -[rstrip]; rewrite ?app_nil_r, <- ?(assoc_L (++)); reflexivity.
Qed.

Lemma prompt_waiting (text : string) (e : bool) (c : Client) :
  stdin c = [] →
  Client.prompt text e c = Waiting (prompt_interrupted text e [] c).
Proof.
  destruct c as [e0 lm i o ch]. cbn. intros ->.
  destruct e, e0;
    unfold Client.prompt, Client.write, Client.set_echo, Client.readline,
      prompted, prompt_interrupted, mbind, M_bind, mret, M_ret, get, modify;
    cbn -[rstrip]; rewrite ?app_nil_r, <- ?(assoc_L (++)); reflexivity.
Qed.

(** C10, amended to the calls that return: a call of [Client.prompt] that
    returns leaves [echo] as it found it, whether echo was requested on
    or off.  When a line is available the call does return: the text is
    written, the channel's echo is switched to the requested value for
    the read (when it differs) and switched back afterwards.  The restore
    is the statement after the read, so a call whose read raises is not
    covered. *)
Theorem prompt_restores_echo (text : string) (e : bool) (c : Client) :
  (∀ result c', Client.prompt text e c = Returned result c' → echo c' = echo c)
  ∧ (∀ raw rest, stdin c = Line raw :: rest →
       ∃ c', Client.prompt text e c = Returned (rstrip raw) c'
             ∧ echo c' = echo c
             ∧ line_mode c' = line_mode c
             ∧ stdin c' = rest
             ∧ stdout c' = stdout c ++ [text]
             ∧ channel_set_echo c'
               = channel_set_echo c
                 ++ (if eqb e (echo c) then [] else [e; echo c])).
Proof.
  split.
  - intros result c' Hret.
    destruct (stdin c) as [|[raw|err] rest] eqn:Hin.
    + by rewrite (prompt_waiting _ _ _ Hin) in Hret.
    + rewrite (prompt_line _ _ _ _ _ Hin) in Hret.
      by inversion Hret; subst.
    + by rewrite (prompt_read_fails _ _ _ _ _ Hin) in Hret.
  - intros raw rest Hin. exists (prompted text e rest c).
    split; [by apply prompt_line|]. by cbn.
Qed.

Lemma prompt_restores_echo_witness :
  echo (mkClient true true [] ["Password: "] [false; true]) = true
  ∧ ∃ c', Client.prompt "Password: " false
            (mkClient true true [Line "pass"] [] [])
          = Returned (rstrip "pass") c'
          ∧ echo c' = true
          ∧ channel_set_echo c' = [false; true].
Proof.
  split.
  - apply (proj1 (prompt_restores_echo "Password: " false
                    (mkClient true true [Line "pass"] [] []))
             "pass" (mkClient true true [] ["Password: "] [false; true])).
    vm_compute. reflexivity.
  - destruct (proj2 (prompt_restores_echo "Password: " false
                       (mkClient true true [Line "pass"] [] []))
                "pass" [] eq_refl)
      as (c' & Hp & He & _ & _ & _ & Hc).
    exists c'. split; [exact Hp|]. split; [exact He|exact Hc].
Defined.

(** C10 as it is stated, for every call, fails on a call whose read
    raises: [prompt] has switched echo off for the read, the exception of
    [readline] leaves [prompt] before the second [set_echo] (there is no
    [try]/[finally] around the read), and the client is left with echo
    off where it was on before the call. *)
Lemma prompt_read_failure_leaves_echo_switched :
  Client.prompt "Password: " false
    (mkClient true true [ReadFails (ConnectionLost "connection lost")] [] [])
  = Raised (ConnectionLost "connection lost")
      (mkClient false true [] ["Password: "] [false])
  ∧ echo (mkClient false true [] ["Password: "] [false])
    ≠ echo (mkClient true true
              [ReadFails (ConnectionLost "connection lost")] [] [])
  ∧ ¬ (∀ text e c err c',
         Client.prompt text e c = Raised err c' → echo c' = echo c).
Proof.
  split; [vm_compute; reflexivity|]. split; [discriminate|].
  intros Hall. enough (Hecho : false = true) by discriminate Hecho.
  apply (Hall "Password: " false
           (mkClient true true
              [ReadFails (ConnectionLost "connection lost")] [] [])
           (ConnectionLost "connection lost")
           (mkClient false true [] ["Password: "] [false])).
  vm_compute. reflexivity.
Qed.

(** ** Match-based dispatch *)

Section MatchBased.
Context `{ReplClasses ReplClass}.
Implicit Types (w : World ReplClass) (ms : list (KnownMatcher ReplClass)).

Lemma handle_command_loop_no_match ms unk cmd args w :
  Forall (rejects cmd args) ms →
  handle_command_loop ms unk cmd args w
  = unk cmd args (mkWorld (client w) (heap w) (printed w ++ trying ms)).
Proof.
  intros Hall. revert w. induction Hall as [|[m h] ms Hm _ IH]; intros w.
  - cbn. rewrite app_nil_r. by destruct w.
  - cbn. unfold mbind, M_bind, print, modify. unfold rejects in Hm.
    cbn in Hm. rewrite Hm. rewrite IH. cbn.
    by rewrite <- (assoc_L (++)).
Qed.

Lemma handle_command_loop_first_match pre m h post unk cmd args w :
  Forall (rejects cmd args) pre →
  matches m cmd args = true →
  handle_command_loop (pre ++ mkKnownMatcher m h :: post) unk cmd args w
  = h cmd args
      (mkWorld (client w) (heap w)
         (printed w ++ trying pre ++ [DTryingMatcher (describe m); DMatched])).
Proof.
  intros Hall Hm. revert w. induction Hall as [|[m' h'] pre Hm' _ IH]; intros w.
  - cbn. unfold mbind, M_bind, print, modify. rewrite Hm. cbn.
    by rewrite <- (assoc_L (++)).
  - cbn. unfold mbind, M_bind, print, modify. unfold rejects in Hm'.
    cbn in Hm'. rewrite Hm'. rewrite IH. cbn.
    by rewrite <- (assoc_L (++)).
Qed.

(** C1: [handle_command] tries the matchers in the order of the dispatch
    list (the printed trace lists them in that order and stops at the
    first that accepts).  When the first accepting pair is [(m, h)], the
    whole call is the call [h cmd args] made right after that trace, so
    no later matcher is tried and neither a later handler nor the
    fallback runs; when every matcher rejects, the call is the call of
    the unknown-command fallback made after all matchers were tried. *)
Theorem handle_command_first_match_wins cls unk cmd args w :
  (∀ pre m h post,
     Forall (rejects cmd args) pre →
     matches m cmd args = true →
     handle_command cls (pre ++ mkKnownMatcher m h :: post) unk cmd args w
     = h cmd args
         (mkWorld (client w) (heap w)
            (printed w ++ [DHandleCommand (class_name cls) cmd args]
             ++ trying pre ++ [DTryingMatcher (describe m); DMatched])))
  ∧ (∀ ms,
     Forall (rejects cmd args) ms →
     handle_command cls ms unk cmd args w
     = unk cmd args
         (mkWorld (client w) (heap w)
            (printed w ++ [DHandleCommand (class_name cls) cmd args]
             ++ trying ms))).
Proof.
  split.
  - intros pre m h post Hpre Hm. unfold handle_command.
    unfold mbind, M_bind, print, modify.
    rewrite handle_command_loop_first_match by done. cbn.
    by rewrite <- (assoc_L (++)).
  - intros ms Hms. unfold handle_command.
    unfold mbind, M_bind, print, modify.
    rewrite handle_command_loop_no_match by done. cbn.
    by rewrite <- (assoc_L (++)).
Qed.

End MatchBased.

(** ** The run loop *)

Lemma parse_command_empty :
  parse_command EmptyString = Err (IndexError "list index out of range").
Proof. reflexivity. Qed.

Section RunLoop.
Context `{ReplClasses ReplClass}.
Implicit Types (w : World ReplClass) (obj : Repl ReplClass)
  (hc : ReplId → Handler ReplClass).

Lemma on_client_prompt_line w text raw rest :
  stdin (client w) = Line raw :: rest →
  on_client (Client.prompt text true) w
  = Returned (rstrip raw)
      (mkWorld (prompted text true rest (client w)) (heap w) (printed w)).
Proof.
  intros Hin. unfold on_client. by rewrite (prompt_line _ _ _ _ _ Hin).
Qed.

Lemma run_not_running fuel hc self obj w :
  heap w !! self = Some obj → running obj = false →
  run fuel hc self w = Some (Returned () w).
Proof. intros Hobj Hrun. destruct fuel; cbn; by rewrite Hobj, Hrun. Qed.

Lemma run_unfold fuel hc self obj w :
  heap w !! self = Some obj → running obj = true →
  run (S fuel) hc self w
  = match run_iteration hc self obj w with
    | Returned _ w' => run fuel hc self w'
    | o => Some o
    end.
Proof. intros Hobj Hrun. cbn. by rewrite Hobj, Hrun. Qed.

Lemma lookup_exit_heap_eq self (h : list (Repl ReplClass)) obj :
  h !! self = Some obj →
  exit_heap self h !! self = Some (set_running false obj).
Proof.
  intros Hobj. unfold exit_heap. rewrite list_lookup_alter_eq.
  by rewrite Hobj.
Qed.

Lemma lookup_exit_heap_ne self i (h : list (Repl ReplClass)) :
  self ≠ i → exit_heap self h !! i = h !! i.
Proof. intros Hne. unfold exit_heap. by rewrite list_lookup_alter_ne. Qed.

(** What one turn of the loop does once the line has been read and parsed. *)
Lemma run_iteration_parsed hc self obj w raw rest word args :
  stdin (client w) = Line raw :: rest →
  parse_command (strip (rstrip raw)) = Ok (mkCommand word args) →
  run_iteration hc self obj w
  = (match exit_command obj with
     | Some exit_word =>
         if bool_decide (word = exit_word) then exit self
         else hc self word args
     | None => hc self word args
     end)
      (mkWorld (prompted (prompt obj) true rest (client w)) (heap w)
         (printed w ++ [DLine (strip (rstrip raw))])).
Proof.
  intros Hin Hparse. unfold run_iteration.
  unfold mbind at 1, M_bind at 1. rewrite (on_client_prompt_line _ _ _ _ Hin).
  rewrite bool_decide_eq_false_2.
  2:{ intros Hempty. rewrite Hempty, parse_command_empty in Hparse. done. }
  rewrite Hparse. reflexivity.
Qed.

(** C8: when the exit command is set and the parsed command word is that
    literal, one turn of the loop ends in a state that does not depend on
    [handle_command] at all (so neither the matchers nor the fallback
    run, whatever is registered): the prompt has been served, the line
    echoed on the console, and [running] is false; and [run] then returns
    in that state. *)
Theorem run_exit_command_preempts hc self obj w raw rest exit_word args :
  heap w !! self = Some obj →
  running obj = true →
  exit_command obj = Some exit_word →
  stdin (client w) = Line raw :: rest →
  parse_command (strip (rstrip raw)) = Ok (mkCommand exit_word args) →
  let w' := mkWorld (prompted (prompt obj) true rest (client w))
              (exit_heap self (heap w))
              (printed w ++ [DLine (strip (rstrip raw))]) in
  run_iteration hc self obj w = Returned () w'
  ∧ heap w' !! self = Some (set_running false obj)
  ∧ (∀ i, i ≠ self → heap w' !! i = heap w !! i)
  ∧ (∀ fuel, run (S fuel) hc self w = Some (Returned () w')).
Proof.
  intros Hobj Hrun Hexit Hin Hparse w'.
  assert (Hiter : run_iteration hc self obj w = Returned () w').
  { rewrite (run_iteration_parsed _ _ _ _ _ _ _ _ Hin Hparse), Hexit.
    by rewrite bool_decide_eq_true_2. }
  assert (Hself : heap w' !! self = Some (set_running false obj)).
  { by apply lookup_exit_heap_eq. }
  split; [done|]. split; [done|]. split.
  - intros i Hi. by apply lookup_exit_heap_ne.
  - intros fuel. rewrite (run_unfold _ _ _ _ _ Hobj Hrun), Hiter.
    by apply (run_not_running _ _ _ _ _ Hself).
Qed.

(** C2 (as the code has it): a line whose parsing fails is not routed to
    the unknown-command fallback.  [run] has no handler for the parser's
    exception: the turn raises it right after the prompt, before anything
    is printed and without calling [handle_command], and [run] ends with
    that exception. *)
Theorem run_parse_error_propagates hc self obj w raw rest e :
  heap w !! self = Some obj →
  running obj = true →
  stdin (client w) = Line raw :: rest →
  strip (rstrip raw) ≠ EmptyString →
  parse_command (strip (rstrip raw)) = Err e →
  let w' := mkWorld (prompted (prompt obj) true rest (client w))
              (heap w) (printed w) in
  run_iteration hc self obj w = Raised e w'
  ∧ (∀ fuel, run (S fuel) hc self w = Some (Raised e w')).
Proof.
  intros Hobj Hrun Hin Hne Hparse w'.
  assert (Hiter : run_iteration hc self obj w = Raised e w').
  { unfold run_iteration. unfold mbind at 1, M_bind at 1.
    rewrite (on_client_prompt_line _ _ _ _ Hin).
    rewrite bool_decide_eq_false_2 by done. by rewrite Hparse. }
  split; [done|].
  intros fuel. by rewrite (run_unfold _ _ _ _ _ Hobj Hrun), Hiter.
Qed.

End RunLoop.

(** ** Leaving nested REPLs *)

Section ExitToClass.
Context `{ReplClasses ReplClass}.
Implicit Types (w : World ReplClass) (obj : Repl ReplClass)
  (h : list (Repl ReplClass)) (cls : ReplClass).

Lemma lookup_exit_heap x i h :
  exit_heap x h !! i
  = (if bool_decide (x = i) then set_running false else id) <$> h !! i.
Proof.
  case_bool_decide as Hx.
  - subst. unfold exit_heap. by rewrite list_lookup_alter_eq.
  - rewrite lookup_exit_heap_ne by done. by destruct (h !! i).
Qed.

Lemma lookup_exit_heap_Some x i h obj :
  h !! i = Some obj →
  ∃ obj', exit_heap x h !! i = Some obj'
          ∧ parent_repl obj' = parent_repl obj ∧ clazz obj' = clazz obj.
Proof.
  intros Hobj. rewrite lookup_exit_heap, Hobj.
  case_bool_decide; eexists; (split; [reflexivity|]); done.
Qed.

Lemma parent_path_exit_heap x h current ids stop :
  parent_path h current ids stop →
  parent_path (exit_heap x h) current ids stop.
Proof.
  induction 1 as [|id obj ids stop Hobj _ IH]; [constructor|].
  destruct (lookup_exit_heap_Some x id h obj Hobj) as (obj' & Hobj' & Hp & _).
  econstructor; [exact Hobj'|]. by rewrite Hp.
Qed.

Lemma is_instance_exit_heap x h cls b id :
  is_instance h cls b id → is_instance (exit_heap x h) cls b id.
Proof.
  intros (obj & Hobj & Hinst).
  destruct (lookup_exit_heap_Some x id h obj Hobj) as (obj' & Hobj' & _ & Hc).
  exists obj'. split; [done|]. unfold isinstance in *. by rewrite Hc.
Qed.

Lemma walk_stops_exit_heap x h cls stop :
  walk_stops h cls stop → walk_stops (exit_heap x h) cls stop.
Proof. destruct stop; [apply is_instance_exit_heap|done]. Qed.

Lemma exiting_exit_heap x h ids : exiting (exit_heap x h) ids = exiting h ids.
Proof.
  unfold exiting. induction ids as [|id ids IH]; [done|]. cbn.
  rewrite IH. rewrite lookup_exit_heap.
  destruct (h !! id) as [obj|]; [|done]. cbn. by case_bool_decide.
Qed.

Lemma lookup_exit_all ids h i :
  exit_all ids h !! i
  = (if bool_decide (i ∈ ids) then set_running false else id) <$> h !! i.
Proof.
  unfold exit_all. revert h. induction ids as [|x ids IH]; intros h.
  - cbn. by destruct (h !! i).
  - cbn. rewrite IH, lookup_exit_heap.
    destruct (h !! i) as [obj|]; [|done]. cbn. f_equal.
    destruct (decide (x = i)) as [->|Hne].
    + rewrite (bool_decide_eq_true_2 (i = i)) by done.
      rewrite (bool_decide_eq_true_2 (i ∈ i :: ids)) by (apply elem_of_cons; by left).
      by case_bool_decide.
    + rewrite (bool_decide_eq_false_2 (x = i)) by done.
      apply (f_equal (λ b : bool, (if b then set_running false else id) obj)).
      apply bool_decide_ext. rewrite elem_of_cons.
      split; [by right|]. intros [Heq|Hin]; [by subst|done].
Qed.

(** The loop, started in any state whose heap is [h]. *)
Lemma exit_to_repl_class_loop_path cls ids :
  ∀ h current stop fuel c p,
    parent_path h current ids stop →
    Forall (is_instance h cls false) ids →
    walk_stops h cls stop →
    length ids ≤ fuel →
    exit_to_repl_class_loop fuel cls current (mkWorld c h p)
    = Some (mkWorld c (exit_all ids h) (p ++ exiting h ids)).
Proof.
  induction ids as [|id ids IH]; intros h current stop fuel c p Hpath Hall Hstop Hfuel.
  - inversion Hpath; subst. cbn. rewrite app_nil_r.
    destruct stop as [target|]; [|by destruct fuel].
    destruct Hstop as (obj & Hobj & Hinst).
    destruct fuel; cbn; by rewrite Hobj, Hinst.
  - inversion Hpath as [|? obj ? ? Hobj Hrest]; subst.
    apply Forall_cons in Hall as [(obj' & Hobj' & Hinst) Hall].
    assert (obj' = obj) as -> by congruence.
    destruct fuel as [|fuel]; [cbn in Hfuel; lia|].
    cbn [exit_to_repl_class_loop heap client printed].
    rewrite Hobj, Hinst.
    rewrite (IH (exit_heap id h) (parent_repl obj) stop fuel).
    + f_equal. f_equal. rewrite exiting_exit_heap.
      unfold exiting at 2. cbn. rewrite Hobj. cbn.
      by rewrite <- (assoc_L (++)).
    + by apply parent_path_exit_heap.
    + eapply Forall_impl; [exact Hall|]. intros i. apply is_instance_exit_heap.
    + by apply walk_stops_exit_heap.
    + cbn in Hfuel. lia.
Qed.

Lemma exit_to_repl_class_path fuel self cls w ids stop :
  parent_path (heap w) (Some self) ids stop →
  Forall (is_instance (heap w) cls false) ids →
  walk_stops (heap w) cls stop →
  length ids ≤ fuel →
  exit_to_repl_class fuel self cls w
  = Some (mkWorld (client w) (exit_all ids (heap w))
            (printed w ++ DExitingUntil (class_name cls) :: exiting (heap w) ids)).
Proof.
  intros Hpath Hall Hstop Hfuel. unfold exit_to_repl_class.
  rewrite (exit_to_repl_class_loop_path cls ids _ _ stop) by done.
  cbn. by rewrite <- (assoc_L (++)).
Qed.

(** C4: [exit_to_repl_class] walks up the [parent_repl] links.  When the
    walk from [self] passes the objects [ids], none of them an instance of
    [cls], and then reaches either an instance of [cls] or the end of the
    chain, the call (given a turn of fuel per object) sets [running] to
    false on exactly the objects [ids] and changes nothing else: the
    object it stops at keeps its [running] flag.  For three nested REPLs
    of which only the root is an instance of [cls], called on the
    innermost: the two inner ones are exited, the root still runs. *)
Theorem exit_to_repl_class_unwinds cls w :
  (∀ fuel self ids stop,
     parent_path (heap w) (Some self) ids stop →
     Forall (is_instance (heap w) cls false) ids →
     walk_stops (heap w) cls stop →
     length ids ≤ fuel →
     ∃ w', exit_to_repl_class fuel self cls w = Some w'
           ∧ client w' = client w
           ∧ printed w'
             = printed w ++ DExitingUntil (class_name cls) :: exiting (heap w) ids
           ∧ (∀ id obj, id ∈ ids → heap w !! id = Some obj →
                heap w' !! id = Some (set_running false obj))
           ∧ (∀ i, i ∉ ids → heap w' !! i = heap w !! i)
           ∧ (∀ target, stop = Some target → heap w' !! target = heap w !! target))
  ∧ (∀ fuel inner middle root o_inner o_middle o_root,
       heap w !! inner = Some o_inner →
       parent_repl o_inner = Some middle →
       heap w !! middle = Some o_middle →
       parent_repl o_middle = Some root →
       heap w !! root = Some o_root →
       parent_repl o_root = None →
       isinstance o_inner cls = false →
       isinstance o_middle cls = false →
       isinstance o_root cls = true →
       running o_root = true →
       2 ≤ fuel →
       ∃ w', exit_to_repl_class fuel inner cls w = Some w'
             ∧ running <$> heap w' !! inner = Some false
             ∧ running <$> heap w' !! middle = Some false
             ∧ heap w' !! root = Some o_root
             ∧ running <$> heap w' !! root = Some true
             ∧ (∀ i, i ≠ inner → i ≠ middle → heap w' !! i = heap w !! i)).
Proof.
  assert (Hgen : ∀ fuel self ids stop,
     parent_path (heap w) (Some self) ids stop →
     Forall (is_instance (heap w) cls false) ids →
     walk_stops (heap w) cls stop →
     length ids ≤ fuel →
     ∃ w', exit_to_repl_class fuel self cls w = Some w'
           ∧ client w' = client w
           ∧ printed w'
             = printed w ++ DExitingUntil (class_name cls) :: exiting (heap w) ids
           ∧ (∀ id obj, id ∈ ids → heap w !! id = Some obj →
                heap w' !! id = Some (set_running false obj))
           ∧ (∀ i, i ∉ ids → heap w' !! i = heap w !! i)
           ∧ (∀ target, stop = Some target → heap w' !! target = heap w !! target)).
  { intros fuel self ids stop Hpath Hall Hstop Hfuel.
    eexists. split; [by apply (exit_to_repl_class_path _ _ _ _ ids stop)|].
    cbn [client heap printed].
    assert (Hout : ∀ i, i ∉ ids → exit_all ids (heap w) !! i = heap w !! i).
    { intros i Hi. rewrite lookup_exit_all, bool_decide_eq_false_2 by done.
      by destruct (heap w !! i). }
    split; [done|]. split; [done|]. split; [|split; [done|]].
    - intros id obj Hin Hobj.
      by rewrite lookup_exit_all, bool_decide_eq_true_2, Hobj.
    - intros target ->. apply Hout. intros Hin.
      destruct Hstop as (obj & Hobj & Htrue).
      rewrite Forall_forall in Hall.
      destruct (Hall _ Hin) as (obj' & Hobj' & Hfalse). congruence. }
  split; [exact Hgen|].
  intros fuel inner middle root o_inner o_middle o_root
    Hinner Hp1 Hmiddle Hp2 Hroot Hp3 Hc1 Hc2 Hc3 Hrun Hfuel.
  destruct (Hgen fuel inner [inner; middle] (Some root))
    as (w' & Hcall & _ & _ & Hexited & Hother & Hstop).
  - econstructor; [exact Hinner|]. rewrite Hp1.
    econstructor; [exact Hmiddle|]. rewrite Hp2. constructor.
  - repeat constructor; eexists; eauto.
  - by exists o_root.
  - done.
  - exists w'. split; [done|].
    rewrite (Hexited inner o_inner), (Hexited middle o_middle), (Hstop root), Hroot;
      try done; try (rewrite !elem_of_cons; auto).
    cbn. rewrite Hrun. repeat split; try done.
    intros i H1 H2. apply Hother. rewrite !elem_of_cons, elem_of_nil. tauto.
Qed.

End ExitToClass.

(** ** The stable sort *)

Section SortedFacts.
Context {A K : Type} (le : K → K → bool) (key : A → K).
Implicit Types (l : list A).

Lemma insert_sorted_Permutation x l : insert_sorted le key x l ≡ₚ x :: l.
Proof.
  induction l as [|y l IH]; cbn; [done|].
  destruct (le (key x) (key y)); [done|].
  rewrite IH. apply Permutation_swap.
Qed.

Lemma sorted_Permutation l : sorted le key l ≡ₚ l.
Proof.
  induction l as [|x l IH]; cbn; [done|].
  by rewrite insert_sorted_Permutation, IH.
Qed.

Lemma elem_of_sorted x l : x ∈ sorted le key l ↔ x ∈ l.
Proof. by rewrite sorted_Permutation. Qed.

Hypothesis le_total : ∀ a b, le a b = true ∨ le b a = true.

Lemma insert_sorted_Sorted x l :
  Sorted (key_le le key) l → Sorted (key_le le key) (insert_sorted le key x l).
Proof.
  induction 1 as [|y l Hl IH Hhd]; cbn.
  - by repeat constructor.
  - destruct (le (key x) (key y)) eqn:Hxy.
    + constructor; [by constructor|]. by constructor.
    + assert (key_le le key y x) as Hyx.
      { unfold key_le. destruct (le_total (key x) (key y)); congruence. }
      constructor; [done|].
      destruct Hhd as [|z l' Hyz]; cbn; [by constructor|].
      destruct (le (key x) (key z)); by constructor.
Qed.

Lemma sorted_Sorted l : Sorted (key_le le key) (sorted le key l).
Proof.
  induction l as [|x l IH]; cbn; [constructor|].
  by apply insert_sorted_Sorted.
Qed.

End SortedFacts.


Lemma String_leb_total (a b : string) : String.leb a b = true ∨ String.leb b a = true.
Proof. apply String.leb_total. Qed.

Lemma sorted_strings_Sorted {A} (key : A → string) (l : list A) :
  Sorted String.le (key <$> sorted String.leb key l).
Proof.
  apply (Sorted_fmap key (key_le String.leb key)).
  - intros x y Hxy. unfold String.le. by apply Is_true_true.
  - apply sorted_Sorted, String_leb_total.
Qed.

(** ** Looking up the handler methods of a class *)

Lemma omap_ext_pointwise {A B} (f g : A → option B) (l : list A) :
  (∀ x, f x = g x) → omap f l = omap g l.
Proof.
  intros Hfg. induction l as [|x l IH]; [done|]. cbn. by rewrite Hfg, IH.
Qed.

Lemma omap_fst_NoDup {K V} (f : K → option (K * V)) (l : list K) :
  (∀ k p, f k = Some p → p.1 = k) → NoDup l → NoDup (omap f l).*1.
Proof.
  intros Hkey. induction 1 as [|k l Hk Hl IH]; cbn; [constructor|].
  destruct (f k) as [p|] eqn:Hfk; [|done]. cbn. constructor; [|done].
  intros (q & Hq & Hin)%list_elem_of_fmap.
  apply list_elem_of_omap in Hin as (k' & Hk' & Hfk').
  apply Hkey in Hfk, Hfk'. congruence.
Qed.

Lemma NoDup_fst_functional {K V} (l : list (K * V)) k v1 v2 :
  NoDup l.*1 → (k, v1) ∈ l → (k, v2) ∈ l → v1 = v2.
Proof.
  induction l as [|[k' v'] l IH]; cbn; intros Hnd H1 H2.
  - by apply elem_of_nil in H1.
  - apply NoDup_cons in Hnd as [Hk' Hnd].
    apply elem_of_cons in H1 as [H1|H1], H2 as [H2|H2].
    + congruence.
    + inversion H1; subst. destruct Hk'. apply list_elem_of_fmap.
      by exists (k', v2).
    + inversion H2; subst. destruct Hk'. apply list_elem_of_fmap.
      by exists (k', v1).
    + by apply IH.
Qed.

Section GetMembers.
Context {ReplClass : Type}.
Implicit Types (attrs : list (string * Member ReplClass))
  (pred : Member ReplClass → bool).

Lemma getattr_Some_elem_of attrs n m :
  getattr attrs n = Some m → (n, m) ∈ attrs.
Proof.
  unfold getattr. intros Hget.
  destruct (last (filter (λ entry, entry.1 = n) attrs)) as [[k v]|] eqn:Hlast;
    [|done].
  cbn in Hget. inversion Hget; subst.
  apply last_Some_elem_of, list_elem_of_filter in Hlast as [Hk Hin].
  cbn in Hk. by subst.
Qed.

Lemma getattr_elem_of_NoDup attrs n m :
  NoDup attrs.*1 → (n, m) ∈ attrs → getattr attrs n = Some m.
Proof.
  intros Hnd Hin. unfold getattr.
  destruct (last (filter (λ entry, entry.1 = n) attrs)) as [[k v]|] eqn:Hlast.
  - apply last_Some_elem_of, list_elem_of_filter in Hlast as [Hk Hin'].
    cbn in Hk. subst k. cbn. f_equal.
    by apply (NoDup_fst_functional attrs n).
  - apply last_None in Hlast.
    assert ((n, m) ∈ filter (λ entry, entry.1 = n) attrs) as Hf
      by (by apply list_elem_of_filter).
    rewrite Hlast in Hf. by apply elem_of_nil in Hf.
Qed.

Lemma getattr_Permutation attrs attrs' n :
  NoDup attrs.*1 → attrs ≡ₚ attrs' → getattr attrs n = getattr attrs' n.
Proof.
  intros Hnd Hperm.
  assert (NoDup attrs'.*1) as Hnd' by (by rewrite <- Hperm).
  destruct (getattr attrs n) as [m|] eqn:Hget.
  - symmetry. apply getattr_elem_of_NoDup; [done|].
    rewrite <- Hperm. by apply getattr_Some_elem_of.
  - destruct (getattr attrs' n) as [m'|] eqn:Hget'; [|done].
    apply getattr_Some_elem_of in Hget'. rewrite <- Hperm in Hget'.
    apply (getattr_elem_of_NoDup _ _ _ Hnd) in Hget'. congruence.
Qed.

Lemma dir_Sorted attrs : Sorted String.le (dir attrs).
Proof.
  unfold dir. rewrite <- (list_fmap_id (sorted _ _ _)).
  apply (sorted_strings_Sorted id).
Qed.

Lemma elem_of_dir attrs n : n ∈ dir attrs ↔ n ∈ attrs.*1.
Proof. unfold dir. by rewrite elem_of_sorted, elem_of_remove_dups. Qed.

Lemma dir_NoDup attrs : NoDup (dir attrs).
Proof. unfold dir. rewrite sorted_Permutation. apply NoDup_remove_dups. Qed.

Lemma dir_Permutation attrs attrs' : attrs ≡ₚ attrs' → dir attrs = dir attrs'.
Proof.
  intros Hperm. apply (Sorted_unique String.le); [apply dir_Sorted..|].
  apply NoDup_Permutation; [apply dir_NoDup..|].
  intros n. by rewrite !elem_of_dir, Hperm.
Qed.

Lemma getmembers_Permutation attrs attrs' pred :
  NoDup attrs.*1 → attrs ≡ₚ attrs' →
  getmembers attrs pred = getmembers attrs' pred.
Proof.
  intros Hnd Hperm. unfold getmembers.
  rewrite (dir_Permutation attrs attrs') by done. f_equal.
  apply omap_ext_pointwise. intros key.
  by rewrite (getattr_Permutation attrs attrs').
Qed.

Lemma elem_of_getmembers attrs pred n m :
  (n, m) ∈ getmembers attrs pred ↔ getattr attrs n = Some m ∧ pred m = true.
Proof.
  unfold getmembers. rewrite elem_of_sorted, list_elem_of_omap. split.
  - intros (key & _ & Hf). destruct (getattr attrs key) as [v|] eqn:Hget; [|done].
    cbn in Hf. destruct (pred v) eqn:Hp; [|done]. by inversion Hf; subst.
  - intros [Hget Hp]. exists n. split.
    + apply elem_of_dir, list_elem_of_fmap. exists (n, m).
      split; [done|]. by apply getattr_Some_elem_of.
    + rewrite Hget. cbn. by rewrite Hp.
Qed.

Lemma getmembers_names_Sorted attrs pred :
  Sorted String.le (getmembers attrs pred).*1.
Proof. apply (sorted_strings_Sorted fst). Qed.

Lemma getmembers_names_NoDup attrs pred : NoDup (getmembers attrs pred).*1.
Proof.
  unfold getmembers. rewrite sorted_Permutation.
  apply omap_fst_NoDup; [|apply dir_NoDup].
  intros k p Hf. destruct (getattr attrs k) as [v|]; [|done].
  cbn in Hf. destruct (pred v); [|done]. by inversion Hf.
Qed.

End GetMembers.

(** ** The [command] decorator *)

Lemma forallb_map_true {A B} (f : B → bool) (g : A → B) (l : list A) :
  forallb f (map g l) = true ↔ Forall (λ x, f (g x) = true) l.
Proof.
  induction l as [|x l IH]; cbn.
  - split; [constructor|done].
  - rewrite andb_true_iff, IH, Forall_cons. done.
Qed.

Lemma existsb_map_false {A B} (f : B → bool) (g : A → B) (l : list A) :
  existsb f (map g l) = false ↔ Forall (λ x, f (g x) = false) l.
Proof.
  induction l as [|x l IH]; cbn.
  - split; [constructor|done].
  - rewrite orb_false_iff, IH, Forall_cons. done.
Qed.

Section CommandDecorator.
Context `{ReplClasses ReplClass}.
Implicit Types (clazz : CommandClass ReplClass)
  (attrs : list (string * Member ReplClass))
  (entries : list (string * Member ReplClass * HandlerData)).

Lemma elem_of_handlers_with_data clazz n m d :
  (n, m, d) ∈ handlers_with_data clazz
  ↔ handler_method (attributes clazz) n m d.
Proof.
  unfold handlers_with_data, handler_method. rewrite list_elem_of_omap. split.
  - intros ([n' m'] & Hin & Hg).
    destruct (handler_attr m') as [d'|] eqn:Hd; [|done].
    cbn in Hg. inversion Hg; subst.
    apply elem_of_getmembers in Hin as [Hget Hp].
    unfold _predicate in Hp. apply andb_true_iff in Hp as [Hc _]. done.
  - intros (Hget & Hc & Hd). exists (n, m). split.
    + apply elem_of_getmembers. split; [done|]. unfold _predicate.
      by rewrite Hc, Hd.
    + by rewrite Hd.
Qed.

Lemma handlers_with_data_are_methods clazz :
  Forall (λ entry, handler_method (attributes clazz) entry.1.1 entry.1.2 entry.2)
    (handlers_with_data clazz).
Proof.
  apply Forall_forall. intros [[n m] d] Hin.
  by apply elem_of_handlers_with_data.
Qed.

Lemma handlers_with_data_names clazz :
  entry_names (handlers_with_data clazz)
  = (getmembers (attributes clazz) _predicate).*1.
Proof.
  unfold handlers_with_data, entry_names.
  assert (Hall : Forall (λ p, _predicate p.2 = true)
                   (getmembers (attributes clazz) _predicate)).
  { apply Forall_forall. intros [n m] Hin.
    by apply elem_of_getmembers in Hin as [_ Hp]. }
  induction Hall as [|[n m] l Hp _ IH]; [done|]. cbn.
  unfold _predicate in Hp. cbn in Hp.
  apply andb_true_iff in Hp as [_ Hd]. apply bool_decide_eq_true in Hd as [d Hd].
  rewrite Hd. cbn. by f_equal.
Qed.

Lemma command_entries_Permutation clazz attrs' :
  NoDup (attributes clazz).*1 → attributes clazz ≡ₚ attrs' →
  command_entries (with_attributes clazz attrs') = command_entries clazz.
Proof.
  intros Hnd Hperm. unfold command_entries, handlers_with_data. cbn.
  by rewrite (getmembers_Permutation (attributes clazz) attrs').
Qed.

(** A name that [_Wrapped] does not define is looked up in [clazz]. *)
Lemma getattr_Wrapped_attributes clazz n :
  n ∉ _Wrapped_method_names →
  getattr (_Wrapped_attributes clazz) n = getattr (attributes clazz) n.
Proof.
  intros Hn. unfold getattr, _Wrapped_attributes. rewrite filter_app.
  unfold _Wrapped_method_names in Hn.
  rewrite !not_elem_of_cons in Hn. destruct Hn as (H1 & H2 & H3 & _).
  rewrite !filter_cons, filter_nil. cbn.
  rewrite !decide_False by (intros Heq; by subst).
  by rewrite app_nil_r.
Qed.

(** The loop of [_Wrapped.register_handlers] over the names of entries of
    the class, none of which [_Wrapped] redefines. *)
Lemma register_methods_entries clazz entries :
  Forall (λ entry, handler_method (attributes clazz) entry.1.1 entry.1.2 entry.2)
    entries →
  Forall (λ n, n ∉ _Wrapped_method_names) (entry_names entries) →
  register_methods (_Wrapped_attributes clazz) (entry_names entries)
  = Ok (map entry_call entries).
Proof.
  intros Hall. induction Hall as [|[[n m] d] entries (Hget & _ & Hd) _ IH];
    [done|].
  change (entry_names ((n, m, d) :: entries)) with (n :: entry_names entries).
  intros [Hn Hrest]%Forall_cons. cbn [register_methods].
  cbn in Hget, Hd. rewrite getattr_Wrapped_attributes, Hget, Hd by done.
  by rewrite (IH Hrest).
Qed.

Lemma _wrapped_register_all_app self (calls : list (Matcher * CommandHandler ReplClass))
    (self_matchers : list (KnownMatcher ReplClass)) :
  _wrapped_register_all self self_matchers calls
  = self_matchers ++ map (wrapped self) calls.
Proof.
  unfold _wrapped_register_all. revert self_matchers.
  induction calls as [|[m h] calls IH]; intros self_matchers; cbn.
  - by rewrite app_nil_r.
  - rewrite IH. unfold _register_handler. by rewrite <- (assoc_L (++)).
Qed.

Lemma CommandBasedRepl_matchers_snoc self (before : list (CommandClass ReplClass))
    c self_matchers calls :
  CommandBasedRepl_matchers self before = Ok self_matchers →
  register_handlers c = Ok calls →
  CommandBasedRepl_matchers self (before ++ [c])
  = Ok (self_matchers ++ map (wrapped self) calls).
Proof.
  unfold CommandBasedRepl_matchers. intros Hbefore Hc.
  rewrite foldl_app. cbn. rewrite Hbefore. cbn. rewrite Hc. cbn.
  by rewrite _wrapped_register_all_app.
Qed.

Lemma command_of_entries name help_text clazz entries :
  command_entries clazz = Ok entries →
  command name help_text clazz = Ok (wrapped_class name help_text clazz entries).
Proof. intros Hentries. unfold command. by rewrite Hentries. Qed.

(** What the wrapped class registers, and what a REPL then appends. *)
Lemma wrapped_class_registers name help_text clazz entries inherited_calls :
  Forall (λ entry, handler_method (attributes clazz) entry.1.1 entry.1.2 entry.2)
    entries →
  register_handlers clazz = Ok inherited_calls →
  Forall (λ n, n ∉ _Wrapped_method_names) (entry_names entries) →
  register_handlers (wrapped_class name help_text clazz entries)
  = Ok (inherited_calls ++ map entry_call entries)
  ∧ (∀ self before self_matchers,
       CommandBasedRepl_matchers self before = Ok self_matchers →
       CommandBasedRepl_matchers self
         (before ++ [wrapped_class name help_text clazz entries])
       = Ok (self_matchers
             ++ map (wrapped self) inherited_calls
             ++ map (λ entry, wrapped self (entry_call entry)) entries)).
Proof.
  intros Hall Hinherited Hnames.
  assert (Hreg : register_handlers (wrapped_class name help_text clazz entries)
                 = Ok (inherited_calls ++ map entry_call entries)).
  { cbn. unfold _Wrapped_register_handlers. rewrite Hinherited. cbn.
    by rewrite register_methods_entries. }
  split; [done|]. intros self before self_matchers Hbefore.
  rewrite (CommandBasedRepl_matchers_snoc _ _ _ _ _ Hbefore Hreg).
  by rewrite map_app, map_map.
Qed.

Lemma command_entries_unordered clazz :
  Forall (λ entry, hd_order entry.2 = None) (handlers_with_data clazz) →
  command_entries clazz = Ok (handlers_with_data clazz).
Proof.
  intros Hnone. unfold command_entries.
  destruct (handlers_with_data clazz) as [|e es]; [done|].
  apply Forall_cons in Hnone as [He Hes]. cbn. rewrite He. cbn.
  assert (existsb is_not_None (map (λ entry, hd_order entry.2) es) = false) as ->; [|done].
  apply existsb_map_false. eapply Forall_impl; [exact Hes|].
  intros e' ->. done.
Qed.

Lemma command_entries_ordered clazz :
  Forall (λ entry, is_Some (hd_order entry.2)) (handlers_with_data clazz) →
  command_entries clazz
  = Ok (sorted Z.leb order_key (handlers_with_data clazz)).
Proof.
  intros Hall. unfold command_entries.
  assert (forallb is_not_None
            (map (λ entry, hd_order entry.2) (handlers_with_data clazz)) = true)
    as ->; [|done].
  apply forallb_map_true. eapply Forall_impl; [exact Hall|].
  intros e [z ->]. done.
Qed.

Lemma command_entries_mixed clazz e1 e2 :
  e1 ∈ handlers_with_data clazz → is_Some (hd_order e1.2) →
  e2 ∈ handlers_with_data clazz → hd_order e2.2 = None →
  command_entries clazz = Err mixed_order_error.
Proof.
  intros Hin1 [z Hz] Hin2 Hnone. unfold command_entries.
  destruct (forallb _ _) eqn:Hall.
  - apply forallb_map_true in Hall. rewrite Forall_forall in Hall.
    specialize (Hall _ Hin2). by rewrite Hnone in Hall.
  - destruct (existsb _ _) eqn:Hany; [done|].
    apply existsb_map_false in Hany. rewrite Forall_forall in Hany.
    specialize (Hany _ Hin1). by rewrite Hz in Hany.
Qed.

End CommandDecorator.

Section CommandClaims.
Context `{ReplClasses ReplClass}.
Implicit Types (clazz : CommandClass ReplClass)
  (attrs : list (string * Member ReplClass))
  (entries : list (string * Member ReplClass * HandlerData)).

(** C3: a class in which one handler method declares an order and another
    does not is rejected by the [command] decorator itself: applying the
    decorator raises, no [_Wrapped] class comes out of it, and whatever
    the program would do next with that class (create an instance,
    register it in a REPL, call [run]) is not reached. *)
Theorem command_mixed_order_raises name help_text clazz n1 m1 d1 n2 m2 d2 :
  handler_method (attributes clazz) n1 m1 d1 →
  is_Some (hd_order d1) →
  handler_method (attributes clazz) n2 m2 d2 →
  hd_order d2 = None →
  command name help_text clazz = Err mixed_order_error
  ∧ (∀ (B : Type) (rest_of_program : CommandClass ReplClass → Result B),
       res_bind (command name help_text clazz) rest_of_program
       = Err mixed_order_error).
Proof.
  intros Hm1 Ho1 Hm2 Ho2.
  assert (Hcmd : command name help_text clazz = Err mixed_order_error).
  { unfold command.
    rewrite (command_entries_mixed clazz (n1, m1, d1) (n2, m2, d2));
      [done| |done| |done]; by apply elem_of_handlers_with_data. }
  split; [done|]. intros B rest_of_program. by rewrite Hcmd.
Qed.


(** C9: when no handler method of a class declares an order, the
    decorator succeeds and keeps the handler methods, each once, in the
    order of [inspect.getmembers]: sorted by method name; declaring the
    attributes of the class in another order gives the same entries.  The
    wrapped class registers them in that order, and a REPL appends them
    to its dispatch list in that order (the names that [_Wrapped] defines
    for itself being no handler methods). *)
Theorem command_unordered_alphabetical name help_text clazz :
  (∀ n m d, handler_method (attributes clazz) n m d → hd_order d = None) →
  ∃ entries,
    command_entries clazz = Ok entries
    ∧ command name help_text clazz = Ok (wrapped_class name help_text clazz entries)
    ∧ (∀ n m d, (n, m, d) ∈ entries ↔ handler_method (attributes clazz) n m d)
    ∧ NoDup (entry_names entries)
    ∧ Sorted String.le (entry_names entries)
    ∧ (∀ attrs', NoDup (attributes clazz).*1 → attributes clazz ≡ₚ attrs' →
         command_entries (with_attributes clazz attrs') = Ok entries)
    ∧ (∀ inherited_calls,
         register_handlers clazz = Ok inherited_calls →
         Forall (λ n, n ∉ _Wrapped_method_names) (entry_names entries) →
         register_handlers (wrapped_class name help_text clazz entries)
         = Ok (inherited_calls ++ map entry_call entries)
         ∧ (∀ self before self_matchers,
              CommandBasedRepl_matchers self before = Ok self_matchers →
              CommandBasedRepl_matchers self
                (before ++ [wrapped_class name help_text clazz entries])
              = Ok (self_matchers
                    ++ map (wrapped self) inherited_calls
                    ++ map (λ entry, wrapped self (entry_call entry)) entries))).
Proof.
  intros Hunordered.
  assert (Hall : Forall (λ entry, hd_order entry.2 = None)
                   (handlers_with_data clazz)).
  { apply Forall_forall. intros [[n m] d] Hin.
    apply elem_of_handlers_with_data in Hin. by apply (Hunordered n m d). }
  pose proof (command_entries_unordered clazz Hall) as Hentries.
  exists (handlers_with_data clazz).
  split; [done|]. split; [by apply command_of_entries|].
  split; [|split; [|split; [|split]]].
  - intros n m d. apply elem_of_handlers_with_data.
  - rewrite handlers_with_data_names. apply getmembers_names_NoDup.
  - rewrite handlers_with_data_names. apply getmembers_names_Sorted.
  - intros attrs' Hnd Hp. by rewrite command_entries_Permutation.
  - intros inherited_calls Hinherited Hnames.
    apply wrapped_class_registers; [|done..].
    apply handlers_with_data_are_methods.
Qed.

End CommandClaims.

(** ** The example server *)

Example example_matchers_described :
  map (λ km, describe (matcher km)) example_matchers
  = ["command starts with 'no snmp'";
     "command word == 'snmp'";
     "command starts with 'configure terminal'";
     "command word == 'configure'"].
Proof. vm_compute. reflexivity. Qed.


Example SnmpCommand_entries :
  command_entries SnmpCommand
  = Ok [("handle_no_snmp", handle_no_snmp,
         mkHandlerData (match_on_cmd_starts_with ["no"; "snmp"]) None);
        ("handle_snmp", handle_snmp,
         mkHandlerData (match_on_cmd "snmp") None)].
Proof. vm_compute. reflexivity. Qed.

(** A handler method called [get_name] is hidden by [_Wrapped.get_name],
    which has no [_handler] attribute: registering raises. *)
Example ShadowedCommand_registration_raises :
  res_bind (command "name" "shows a name" ShadowedCommand) register_handlers
  = Err (AttributeError "_handler").
Proof. vm_compute. reflexivity. Qed.

Example handle_snmp_writes_args :
  call handle_snmp 0 "snmp" ["community"; "public"; "it's"]
    (top_level_session None [])
  = Returned ()
      (mkWorld
         (mkClient true true []
            [str (chars "changed some SNMP things with args=['community', 'public', "
                  ++ [Shlex.dquote] ++ chars "it's" ++ [Shlex.dquote]
                  ++ chars "]" ++ [ascii_of_nat 10])]
            [])
         (heap (top_level_session None []))
         []).
Proof. vm_compute. reflexivity. Qed.

Lemma handle_command_first_match_wins_witness :
  handle_command TopLevelRepl example_matchers unknown_command
    "configure" ["terminal"] (top_level_session None [])
  = on_client (Client.writeln "% Yo you need to be enabled, dummy!")
      (mkWorld (client (top_level_session None []))
         (heap (top_level_session None []))
         [DHandleCommand "TopLevelRepl" "configure" ["terminal"];
          DTryingMatcher "command starts with 'no snmp'";
          DTryingMatcher "command word == 'snmp'";
          DTryingMatcher "command starts with 'configure terminal'";
          DMatched])
  ∧ handle_command TopLevelRepl example_matchers raising_unknown_command
      "show" ["version"] (top_level_session None [])
    = Raised (Exception "the fallback was called")
        (mkWorld (client (top_level_session None []))
           (heap (top_level_session None []))
           [DHandleCommand "TopLevelRepl" "show" ["version"];
            DTryingMatcher "command starts with 'no snmp'";
            DTryingMatcher "command word == 'snmp'";
            DTryingMatcher "command starts with 'configure terminal'";
            DTryingMatcher "command word == 'configure'"]).
Proof.
  split.
  - assert (Hpre : Forall (rejects "configure" ["terminal"])
                     (take 2 example_matchers)) by (repeat constructor).
    exact (proj1 (handle_command_first_match_wins TopLevelRepl unknown_command
                    "configure" ["terminal"] (top_level_session None []))
             (take 2 example_matchers)
             (match_on_cmd_starts_with ["configure"; "terminal"])
             (call handle_configure_terminal 0)
             (drop 3 example_matchers) Hpre eq_refl).
  - assert (Hall : Forall (rejects "show" ["version"]) example_matchers)
      by (repeat constructor).
    exact (proj2 (handle_command_first_match_wins TopLevelRepl
                    raising_unknown_command
                    "show" ["version"] (top_level_session None []))
             example_matchers Hall).
Defined.

Lemma run_exit_command_preempts_witness :
  run 1 (λ _, handle_command TopLevelRepl exit_matchers raising_unknown_command)
    0 (top_level_session (Some "exit") ["exit"; "configure"])
  = Some (Returned ()
            (mkWorld
               (mkClient true true [typed "configure"] ["hostname> "] [])
               [mkRepl (Some "exit") "hostname> " false None TopLevelRepl]
               [DLine "exit"])).
Proof.
  exact (proj2 (proj2 (proj2 (run_exit_command_preempts
           (λ _, handle_command TopLevelRepl exit_matchers raising_unknown_command)
           0 (mkRepl (Some "exit") "hostname> " true None TopLevelRepl)
           (top_level_session (Some "exit") ["exit"; "configure"])
           ("exit" +:+ String (ascii_of_nat 10) EmptyString)
           [typed "configure"] "exit" []
           eq_refl eq_refl eq_refl eq_refl eq_refl))) 0).
Defined.

Lemma run_parse_error_propagates_witness :
  run 1 (λ _, handle_command TopLevelRepl example_matchers unknown_command)
    0 (top_level_session None ["what's up"; "configure"])
  = Some (Raised (ValueError "No closing quotation")
            (mkWorld
               (mkClient true true [typed "configure"] ["hostname> "] [])
               [mkRepl None "hostname> " true None TopLevelRepl]
               [])).
Proof.
  assert (Hne : strip (rstrip ("what's up" +:+ String (ascii_of_nat 10) EmptyString))
                ≠ EmptyString) by (vm_compute; discriminate).
  exact (proj2 (run_parse_error_propagates
           (λ _, handle_command TopLevelRepl example_matchers unknown_command)
           0 (mkRepl None "hostname> " true None TopLevelRepl)
           (top_level_session None ["what's up"; "configure"])
           ("what's up" +:+ String (ascii_of_nat 10) EmptyString)
           [typed "configure"] (ValueError "No closing quotation")
           eq_refl eq_refl eq_refl Hne eq_refl) 0).
Defined.

(** C2 as it is stated fails on the line [what's up]: its parsing fails
    and [run], instead of calling the unknown-command fallback (which
    prints its diagnostic and lets the loop go on to the next line), ends
    with the parser's exception, nothing printed and the next line
    unread. *)
Lemma run_parse_error_not_routed_to_fallback :
  parse_command "what's up" = Err (ValueError "No closing quotation")
  ∧ run 10 (λ _, handle_command TopLevelRepl example_matchers unknown_command)
      0 (top_level_session None ["what's up"; "configure"])
    = Some (Raised (ValueError "No closing quotation")
              (mkWorld
                 (mkClient true true [typed "configure"] ["hostname> "] [])
                 [mkRepl None "hostname> " true None TopLevelRepl]
                 [])).
Proof. split; vm_compute; reflexivity. Qed.

Lemma exit_to_repl_class_unwinds_witness :
  (∃ w', exit_to_repl_class 2 2 TopLevelRepl nested_session = Some w'
         ∧ running <$> heap w' !! 2 = Some false
         ∧ running <$> heap w' !! 1 = Some false
         ∧ running <$> heap w' !! 0 = Some true)
  ∧ (∃ w', exit_to_repl_class 1 0 ConfigureTerminalRepl nested_session = Some w'
           ∧ running <$> heap w' !! 0 = Some false
           ∧ heap w' !! 1 = heap nested_session !! 1).
Proof.
  split.
  - destruct (proj2 (exit_to_repl_class_unwinds TopLevelRepl nested_session)
                2 2 1 0
                (mkRepl None "hostname(config)> " true (Some 1) ConfigureTerminalRepl)
                (mkRepl None "hostname(config)> " true (Some 0) ConfigureTerminalRepl)
                (mkRepl None "hostname> " true None TopLevelRepl))
      as (w' & Hcall & Hinner & Hmiddle & _ & Hroot & _);
      [reflexivity..|].
    exists w'. repeat split; assumption.
  - assert (Hpath : parent_path (heap nested_session) (Some 0) [0] None).
    { apply (parent_path_up _ 0 (mkRepl None "hostname> " true None TopLevelRepl));
        [reflexivity|apply parent_path_here]. }
    assert (Hall : Forall (is_instance (heap nested_session)
                             ConfigureTerminalRepl false) [0]).
    { repeat constructor. eexists. split; reflexivity. }
    destruct (proj1 (exit_to_repl_class_unwinds ConfigureTerminalRepl
                       nested_session) 1 0 [0] None Hpath Hall I (le_n 1))
      as (w' & Hcall & _ & _ & Hexited & Hother & _).
    exists w'. split; [exact Hcall|]. split.
    + rewrite (Hexited 0 (mkRepl None "hostname> " true None TopLevelRepl));
        [reflexivity|apply elem_of_cons; by left|reflexivity].
    + apply Hother. rewrite elem_of_cons, elem_of_nil. lia.
Defined.

(** The handler methods of a class given by its list of attributes. *)
Ltac handler_method_cases Hmethod :=
  let Hget := fresh "Hget" in
  let Hc := fresh "Hc" in
  let Hd := fresh "Hd" in
  destruct Hmethod as (Hget & Hc & Hd);
  apply getattr_Some_elem_of in Hget; cbn in Hget;
  repeat (apply elem_of_cons in Hget as [Hget|Hget];
          [inversion Hget; subst; clear Hget; cbn in Hd;
           try discriminate Hd; try (inversion Hd; subst; clear Hd)|]);
  try (by apply elem_of_nil in Hget).

Lemma command_mixed_order_raises_witness :
  command "configure" "configure settings" MixedCommand = Err mixed_order_error.
Proof.
  refine (proj1 (command_mixed_order_raises "configure" "configure settings"
                   MixedCommand
                   "handle_configure_terminal" handle_configure_terminal
                   (mkHandlerData
                      (match_on_cmd_starts_with ["configure"; "terminal"])
                      (Some 1%Z))
                   "handle_configure" handle_configure_no_order
                   (mkHandlerData (match_on_cmd "configure") None)
                   _ _ _ _)).
  - repeat split.
  - by eexists.
  - repeat split.
  - reflexivity.
Defined.


Lemma command_unordered_alphabetical_witness :
  ∃ entries,
    command_entries SnmpCommand = Ok entries
    ∧ Sorted String.le (entry_names entries)
    ∧ CommandBasedRepl_matchers 0
        [wrapped_class "snmp" "change SNMP settings" SnmpCommand entries]
      = Ok (map (λ entry, wrapped 0 (entry_call entry)) entries).
Proof.
  destruct (command_unordered_alphabetical "snmp" "change SNMP settings"
              SnmpCommand)
    as (entries & Hentries & _ & _ & _ & Hsorted & _ & Hregister).
  - intros n m d Hmethod. handler_method_cases Hmethod; reflexivity.
  - exists entries. split; [exact Hentries|]. split; [exact Hsorted|].
    destruct (Hregister [] eq_refl) as [_ Hdispatch].
    + assert (entries
              = [("handle_no_snmp", handle_no_snmp,
                  mkHandlerData (match_on_cmd_starts_with ["no"; "snmp"]) None);
                 ("handle_snmp", handle_snmp,
                  mkHandlerData (match_on_cmd "snmp") None)])
        as -> by (pose proof SnmpCommand_entries as Hc;
                  rewrite Hentries in Hc; by inversion Hc).
      apply (bool_decide_unpack _). vm_compute. exact I.
    + exact (Hdispatch 0 [] [] eq_refl).
Defined.

(** * Further properties *)

(** ** [strip] and [rstrip] *)

Lemma chars_str (cs : list ascii) : chars (str cs) = cs.
Proof. apply String.list_ascii_of_string_of_list_ascii. Qed.

Lemma str_chars (s : string) : str (chars s) = s.
Proof. apply String.string_of_list_ascii_of_string. Qed.

Lemma lstrip_chars_snoc (l : list ascii) (c : ascii) :
  lstrip_chars (l ++ [c])
  = match lstrip_chars l with
    | [] => if py_isspace c then [] else [c]
    | r => r ++ [c]
    end.
Proof.
  induction l as [|a l IH]; cbn; [done|].
  destruct (py_isspace a); [exact IH|done].
Qed.

(** [rstrip_chars] read from the left. *)
Lemma rstrip_chars_cons (c : ascii) (l : list ascii) :
  rstrip_chars (c :: l)
  = match rstrip_chars l with
    | [] => if py_isspace c then [] else [c]
    | r => c :: r
    end.
Proof.
  unfold rstrip_chars. cbn [rev]. rewrite lstrip_chars_snoc.
  destruct (lstrip_chars (rev l)) as [|x r] eqn:Hl.
  - cbn. by destruct (py_isspace c).
  - rewrite rev_unit. destruct (rev (x :: r)) as [|y r'] eqn:Hr; [|done].
    apply (f_equal (@length ascii)) in Hr. rewrite length_rev in Hr. done.
Qed.

Lemma rstrip_chars_nil : rstrip_chars [] = [].
Proof. reflexivity. Qed.

Lemma lstrip_chars_head (l : list ascii) (c : ascii) :
  head (lstrip_chars l) = Some c → py_isspace c = false.
Proof.
  induction l as [|a l IH]; cbn; [done|].
  destruct (py_isspace a) eqn:Ha; [exact IH|]. cbn. by intros [= <-].
Qed.

Lemma lstrip_chars_id (l : list ascii) :
  (∀ c, head l = Some c → py_isspace c = false) → lstrip_chars l = l.
Proof.
  destruct l as [|a l]; [done|]. cbn. intros Hhead.
  by rewrite (Hhead a eq_refl).
Qed.

Lemma rstrip_chars_head (l : list ascii) :
  (∀ c, head l = Some c → py_isspace c = false) →
  head (rstrip_chars l) = head l.
Proof.
  destruct l as [|a l]; [done|]. cbn [head]. intros Hhead.
  rewrite rstrip_chars_cons, (Hhead a eq_refl).
  by destruct (rstrip_chars l).
Qed.

Lemma rstrip_chars_last (l : list ascii) (c : ascii) :
  last (rstrip_chars l) = Some c → py_isspace c = false.
Proof.
  unfold rstrip_chars.
  destruct (lstrip_chars (rev l)) as [|a r] eqn:Hl; [done|].
  cbn [rev]. rewrite last_snoc. intros [= <-].
  apply (lstrip_chars_head (rev l)). by rewrite Hl.
Qed.

Lemma rstrip_chars_idemp (l : list ascii) :
  rstrip_chars (rstrip_chars l) = rstrip_chars l.
Proof.
  induction l as [|a l IH]; [done|]. rewrite rstrip_chars_cons.
  destruct (rstrip_chars l) as [|x r] eqn:Hr.
  - destruct (py_isspace a) eqn:Ha; [done|].
    rewrite rstrip_chars_cons. cbn. by rewrite Ha.
  - rewrite rstrip_chars_cons, IH. done.
Qed.

Lemma lstrip_rstrip_chars (l : list ascii) :
  lstrip_chars (rstrip_chars l) = rstrip_chars (lstrip_chars l).
Proof.
  induction l as [|a l IH]; [done|].
  destruct (py_isspace a) eqn:Ha.
  - assert (lstrip_chars (a :: l) = lstrip_chars l) as ->
      by (cbn; by rewrite Ha).
    rewrite <- IH, rstrip_chars_cons, Ha.
    destruct (rstrip_chars l); [done|]. cbn [lstrip_chars]. by rewrite Ha.
  - assert (lstrip_chars (a :: l) = a :: l) as -> by (cbn; by rewrite Ha).
    rewrite rstrip_chars_cons, Ha.
    destruct (rstrip_chars l); cbn; by rewrite Ha.
Qed.

Lemma strip_rstrip (s : string) : strip (rstrip s) = strip s.
Proof.
  unfold strip, rstrip. rewrite chars_str. f_equal.
  by rewrite lstrip_rstrip_chars, rstrip_chars_idemp.
Qed.

Lemma strip_strip (s : string) : strip (strip s) = strip s.
Proof.
  unfold strip. rewrite chars_str. f_equal.
  rewrite lstrip_rstrip_chars.
  rewrite (lstrip_chars_id (lstrip_chars _)) by apply lstrip_chars_head.
  apply rstrip_chars_idemp.
Qed.

Lemma strip_head (s : string) (c : ascii) :
  head (chars (strip s)) = Some c → py_isspace c = false.
Proof.
  unfold strip. rewrite chars_str.
  rewrite rstrip_chars_head by apply lstrip_chars_head.
  apply lstrip_chars_head.
Qed.

(** ** The tokenizer *)

Lemma push_nonempty (token : string) (c : ascii) :
  Shlex.push token c ≠ EmptyString.
Proof. unfold Shlex.push. by destruct token. Qed.

Lemma whitespace_isspace (c : ascii) :
  Shlex.whitespace c = true → py_isspace c = true.
Proof. destruct c as [[] [] [] [] [] [] [] []]; by vm_compute. Qed.

Lemma emit_pending (token : string) (quoted : bool) :
  token ≠ EmptyString ∨ quoted = true →
  Shlex.emit token quoted = [token].
Proof.
  unfold Shlex.emit. intros [Htok| ->]; [|done].
  by rewrite bool_decide_eq_false_2, andb_false_r.
Qed.

Lemma pending_emits (token : string) (quoted : bool) :
  token ≠ EmptyString ∨ quoted = true →
  negb (bool_decide (token = EmptyString)) || quoted = true.
Proof.
  intros [Htok| ->]; [|apply orb_true_r].
  by rewrite bool_decide_eq_false_2.
Qed.

(** A token under way is never lost: the tokenizer cannot end with no
    token at all. *)
Lemma read_tokens_pending (cs : list ascii) :
  ∀ state token quoted,
    match state with
    | Shlex.SSpace | Shlex.SWord => token ≠ EmptyString ∨ quoted = true
    | _ => True
    end →
    Shlex.read_tokens cs state token quoted ≠ Ok [].
Proof.
  induction cs as [|c cs IH]; intros state token quoted Hp.
  - destruct state; cbn; try done; by rewrite emit_pending.
  - destruct state as [| |q|e back]; cbn.
    + destruct (Shlex.whitespace c).
      * rewrite pending_emits by done.
        by destruct (Shlex.read_tokens cs Shlex.SSpace EmptyString false).
      * destruct (Shlex.escape c); [by apply IH|].
        destruct (Shlex.quotes c); [by apply IH|].
        apply IH. by left.
    + destruct (Shlex.whitespace c).
      * rewrite pending_emits by done.
        by destruct (Shlex.read_tokens cs Shlex.SSpace EmptyString false).
      * destruct (Shlex.quotes c); [by apply IH|].
        destruct (Shlex.escape c); [by apply IH|].
        apply IH. left. apply push_nonempty.
    + case_bool_decide; [apply IH; by right|].
      destruct (Shlex.escape c && Shlex.escapedquotes q); by apply IH.
    + destruct back; [|by apply IH].
      apply IH. left. apply push_nonempty.
Qed.

Lemma read_tokens_nil (cs : list ascii) :
  Shlex.read_tokens cs Shlex.SSpace EmptyString false = Ok [] →
  Forall (λ c, Shlex.whitespace c = true) cs.
Proof.
  induction cs as [|c cs IH]; [constructor|]. cbn.
  destruct (Shlex.whitespace c) eqn:Hc.
  - cbn. intros Hrest. constructor; [done|]. by apply IH.
  - intros Hnil. exfalso. revert Hnil.
    destruct (Shlex.escape c); [by apply read_tokens_pending|].
    destruct (Shlex.quotes c); [by apply read_tokens_pending|].
    apply read_tokens_pending. by left.
Qed.

Lemma read_tokens_errors (cs : list ascii) :
  ∀ state token quoted e,
    Shlex.read_tokens cs state token quoted = Err e →
    e = ValueError "No closing quotation" ∨ e = ValueError "No escaped character".
Proof.
  induction cs as [|c cs IH]; intros state token quoted e.
  - destruct state; cbn; intros [= <-]; auto.
  - destruct state as [| |q|e' back]; cbn.
    + destruct (Shlex.whitespace c).
      * destruct (negb _ || quoted); [|apply IH].
        destruct (Shlex.read_tokens cs Shlex.SSpace EmptyString false) eqn:Hr;
          cbn; [done|]. intros [= <-]. by apply IH in Hr.
      * destruct (Shlex.escape c); [apply IH|].
        destruct (Shlex.quotes c); apply IH.
    + destruct (Shlex.whitespace c).
      * destruct (negb _ || quoted); [|apply IH].
        destruct (Shlex.read_tokens cs Shlex.SSpace EmptyString false) eqn:Hr;
          cbn; [done|]. intros [= <-]. by apply IH in Hr.
      * destruct (Shlex.quotes c); [apply IH|].
        destruct (Shlex.escape c); apply IH.
    + case_bool_decide; [apply IH|].
      destruct (Shlex.escape c && Shlex.escapedquotes q); apply IH.
    + destruct back; apply IH.
Qed.

(** Without quote and escape characters the tokenizer stays between
    [' '] and ['a'] and cannot fail. *)
Lemma read_tokens_unquoted (cs : list ascii) :
  Forall (λ c, Shlex.quotes c = false ∧ Shlex.escape c = false) cs →
  ∀ state token quoted,
    state = Shlex.SSpace ∨ state = Shlex.SWord →
    ∃ tokens, Shlex.read_tokens cs state token quoted = Ok tokens.
Proof.
  induction 1 as [|c cs [Hq He] _ IH]; intros state token quoted Hstate.
  - destruct Hstate as [-> | ->]; cbn; by eexists.
  - assert (Hemit : ∃ tokens,
              res_bind (Shlex.read_tokens cs Shlex.SSpace EmptyString false)
                (λ ts, Ok (token :: ts)) = Ok tokens).
    { destruct (IH Shlex.SSpace EmptyString false) as [ts Hts]; [by left|].
      rewrite Hts. by eexists. }
    destruct Hstate as [-> | ->]; cbn; rewrite Hq, He;
      destruct (Shlex.whitespace c);
      try destruct (negb _ || quoted); try done; apply IH; auto.
Qed.

Lemma Forall_lstrip_chars (P : ascii → Prop) (l : list ascii) :
  Forall P l → Forall P (lstrip_chars l).
Proof.
  induction 1 as [|a l Ha Hl IH]; cbn; [constructor|].
  destruct (py_isspace a); [done|by constructor].
Qed.

Lemma Forall_rstrip_chars (P : ascii → Prop) (l : list ascii) :
  Forall P l → Forall P (rstrip_chars l).
Proof.
  induction 1 as [|a l Ha Hl IH]; [constructor|].
  rewrite rstrip_chars_cons. destruct (rstrip_chars l) as [|x r].
  - destruct (py_isspace a); by repeat constructor.
  - by constructor.
Qed.

(** ** The parser, further *)

Lemma split_strip_no_token (line : string) :
  Shlex.read_tokens (chars (strip line)) Shlex.SSpace EmptyString false = Ok [] →
  strip line = EmptyString.
Proof.
  intros Hsplit. apply read_tokens_nil in Hsplit.
  destruct (chars (strip line)) as [|c cs] eqn:Hchars.
  - by rewrite <- (str_chars (strip line)), Hchars.
  - apply Forall_cons in Hsplit as [Hc _].
    apply whitespace_isspace in Hc.
    assert (py_isspace c = false); [|congruence].
    apply (strip_head line). by rewrite Hchars.
Qed.

(** X1: [parse_command] raises [IndexError] on exactly the lines that
    [strip()] empties -- the lines that [Repl.run] skips before it calls
    the parser -- and on every other line it returns a command or raises
    [ValueError]. *)
Theorem parse_command_IndexError_iff_blank (line : string) :
  ((∃ msg, parse_command line = Err (IndexError msg))
   ↔ strip line = EmptyString)
  ∧ (strip line = EmptyString
     ∨ (∃ parsed, parse_command line = Ok parsed)
     ∨ (∃ msg, parse_command line = Err (ValueError msg))).
Proof.
  unfold parse_command, Shlex.split. split; [split|].
  - intros [msg Hparse].
    destruct (Shlex.read_tokens (chars (strip line)) Shlex.SSpace EmptyString false)
      as [[|word args]|e] eqn:Hsplit; cbn in Hparse; [|done|].
    + by apply split_strip_no_token.
    + apply read_tokens_errors in Hsplit as [-> | ->]; discriminate Hparse.
  - intros ->. by eexists.
  - destruct (Shlex.read_tokens (chars (strip line)) Shlex.SSpace EmptyString false)
      as [[|word args]|e] eqn:Hsplit; cbn.
    + left. by apply split_strip_no_token.
    + right; left. by eexists.
    + right; right. apply read_tokens_errors in Hsplit as [-> | ->]; by eexists.
Qed.

(** X2: the only exceptions of [parse_command] are [IndexError] and the
    two [ValueError]s of the tokenizer, and a line without any quote or
    backslash character never raises [ValueError]. *)
Theorem parse_command_exceptions (line : string) :
  (∀ e, parse_command line = Err e →
        e = IndexError "list index out of range"
        ∨ e = ValueError "No closing quotation"
        ∨ e = ValueError "No escaped character")
  ∧ (Forall (λ c, Shlex.quotes c = false ∧ Shlex.escape c = false) (chars line) →
     ∀ msg, parse_command line ≠ Err (ValueError msg)).
Proof.
  unfold parse_command, Shlex.split. split.
  - intros e.
    destruct (Shlex.read_tokens (chars (strip line)) Shlex.SSpace EmptyString false)
      as [[|word args]|e'] eqn:Hsplit; cbn; [by intros [= <-]; left|done|].
    intros [= <-]. right. by apply read_tokens_errors in Hsplit.
  - intros Hplain msg.
    destruct (read_tokens_unquoted (chars (strip line))) with
      (state := Shlex.SSpace) (token := EmptyString) (quoted := false)
      as [tokens Htokens]; [|by left|].
    + unfold strip. rewrite chars_str.
      by apply Forall_rstrip_chars, Forall_lstrip_chars.
    + rewrite Htokens. by destruct tokens.
Qed.

Lemma parse_command_exceptions_witness :
  parse_command "show version" ≠ Err (ValueError "No closing quotation").
Proof.
  apply (proj2 (parse_command_exceptions "show version")).
  apply (bool_decide_unpack _). vm_compute. exact I.
Defined.

(** X4: what [Repl.run] hands to the parser -- the line of
    [Client.prompt], which has been through [rstrip()], then through
    [strip()] -- parses like the raw line read from the client, and is
    blank exactly when the raw line is. *)
Theorem run_parses_the_raw_line (raw : string) :
  strip (rstrip raw) = strip raw
  ∧ parse_command (strip (rstrip raw)) = parse_command raw.
Proof.
  split; [apply strip_rstrip|].
  unfold parse_command. by rewrite strip_strip, strip_rstrip.
Qed.

(** ** Lines made of plain words *)

Lemma append_String (c : ascii) (s1 s2 : string) :
  String c s1 +:+ s2 = String c (s1 +:+ s2).
Proof. reflexivity. Qed.

Lemma chars_append (s1 s2 : string) : chars (s1 +:+ s2) = chars s1 ++ chars s2.
Proof.
  induction s1 as [|c s1 IH]; [done|].
  rewrite append_String. unfold chars in *. cbn. by f_equal.
Qed.

Lemma append_empty_r (s : string) : s +:+ EmptyString = s.
Proof.
  induction s as [|c s IH]; [done|]. rewrite append_String. by f_equal.
Qed.

Lemma push_append (token : string) (c : ascii) (s : string) :
  Shlex.push token c +:+ s = token +:+ String c s.
Proof.
  unfold Shlex.push. induction token as [|a token IH]; [done|].
  rewrite !append_String. by f_equal.
Qed.

Lemma plain_spec (c : ascii) :
  plain c = true →
  py_isspace c = false ∧ Shlex.whitespace c = false
  ∧ Shlex.quotes c = false ∧ Shlex.escape c = false.
Proof.
  unfold plain. rewrite !andb_true_iff, !negb_true_iff.
  intros [[Hs Hq] He]. repeat split; try done.
  destruct (Shlex.whitespace c) eqn:Hw; [|done].
  apply whitespace_isspace in Hw. congruence.
Qed.

(** Inside a word, plain characters are appended to the token. *)
Lemma read_tokens_plain (cs rest : list ascii) :
  Forall (λ c, plain c = true) cs →
  ∀ token quoted,
    Shlex.read_tokens (cs ++ rest) Shlex.SWord token quoted
    = Shlex.read_tokens rest Shlex.SWord (token +:+ str cs) quoted.
Proof.
  induction 1 as [|c cs Hc _ IH]; intros token quoted.
  - cbn [app str String.string_of_list_ascii]. by rewrite append_empty_r.
  - apply plain_spec in Hc as (_ & Hw & Hq & He).
    cbn [app Shlex.read_tokens]. rewrite Hw, Hq, He, IH.
    by rewrite push_append.
Qed.

Lemma read_tokens_plain_word (word : string) (rest : list ascii) :
  plain_word word →
  Shlex.read_tokens (chars word ++ rest) Shlex.SSpace EmptyString false
  = Shlex.read_tokens rest Shlex.SWord word false.
Proof.
  intros [Hne Hplain]. rewrite <- (str_chars word) at 2.
  destruct (chars word) as [|c cs] eqn:Hchars.
  - destruct Hne. by rewrite <- (str_chars word), Hchars.
  - apply Forall_cons in Hplain as [Hc Hcs].
    apply plain_spec in Hc as (_ & Hw & Hq & He).
    cbn [app Shlex.read_tokens]. rewrite Hw, Hq, He.
    by rewrite read_tokens_plain.
Qed.

Lemma chars_join_spaces (word : string) (words : list string) :
  chars (join_spaces (word :: words))
  = chars word
    ++ match words with
       | [] => []
       | w :: ws => " "%char :: chars (join_spaces (w :: ws))
       end.
Proof.
  destruct words as [|w ws]; cbn [join_spaces].
  - by rewrite app_nil_r.
  - by rewrite !chars_append.
Qed.

Lemma read_tokens_join_spaces (words : list string) :
  ∀ word,
    plain_word word → Forall plain_word words →
    Shlex.read_tokens (chars (join_spaces (word :: words)))
      Shlex.SSpace EmptyString false
    = Ok (word :: words).
Proof.
  induction words as [|w ws IH]; intros word Hword Hwords;
    rewrite chars_join_spaces, read_tokens_plain_word by done.
  - cbn. rewrite emit_pending; [done|]. left. apply Hword.
  - apply Forall_cons in Hwords as [Hw Hws].
    cbn [Shlex.read_tokens Shlex.whitespace].
    rewrite pending_emits by (left; apply Hword).
    by rewrite IH.
Qed.

Lemma head_rev {A} (l : list A) : head (rev l) = last l.
Proof.
  destruct l as [|x l _] using rev_ind; [done|].
  by rewrite rev_unit, last_snoc.
Qed.

Lemma rstrip_chars_id (l : list ascii) :
  (∀ c, last l = Some c → py_isspace c = false) → rstrip_chars l = l.
Proof.
  intros Hlast. unfold rstrip_chars.
  rewrite lstrip_chars_id; [apply rev_involutive|].
  intros c. rewrite head_rev. apply Hlast.
Qed.

Lemma plain_word_chars (word : string) :
  plain_word word →
  ∃ c cs, chars word = c :: cs ∧ Forall (λ c, plain c = true) (c :: cs).
Proof.
  intros [Hne Hplain]. destruct (chars word) as [|c cs] eqn:Hchars.
  - destruct Hne. by rewrite <- (str_chars word), Hchars.
  - by exists c, cs.
Qed.

Lemma last_join_spaces (words : list string) :
  ∀ word c,
    plain_word word → Forall plain_word words →
    last (chars (join_spaces (word :: words))) = Some c →
    py_isspace c = false.
Proof.
  induction words as [|w ws IH]; intros word c Hword Hwords;
    rewrite chars_join_spaces.
  - rewrite app_nil_r. intros Hlast%last_Some_elem_of.
    destruct Hword as [_ Hplain]. rewrite Forall_forall in Hplain.
    by apply plain_spec, Hplain.
  - apply Forall_cons in Hwords as [Hw Hws].
    rewrite last_app_cons.
    destruct (plain_word_chars w Hw) as (c' & cs' & Hchars & _).
    destruct (chars (join_spaces (w :: ws))) as [|x l] eqn:Hjoin.
    { rewrite chars_join_spaces, Hchars in Hjoin. done. }
    rewrite last_cons_cons, <- Hjoin. by apply IH.
Qed.

Lemma strip_join_spaces (word : string) (words : list string) :
  plain_word word → Forall plain_word words →
  strip (join_spaces (word :: words)) = join_spaces (word :: words).
Proof.
  intros Hword Hwords. unfold strip.
  rewrite lstrip_chars_id, rstrip_chars_id; [apply str_chars| |].
  - intros c. by apply last_join_spaces.
  - intros c. rewrite chars_join_spaces.
    destruct (plain_word_chars word Hword) as (c' & cs' & -> & Hplain).
    cbn. intros [= <-]. apply Forall_cons in Hplain as [Hc _].
    by apply plain_spec.
Qed.

(** X3: a command line written as plain words (no whitespace, quote or
    backslash inside a word) joined by single spaces parses back to those
    words; so the command line that the description of
    [match_on_cmd_starts_with expected] displays parses to a command
    that this matcher accepts. *)
Theorem parse_command_join_spaces (word : string) (args : list string) :
  plain_word word → Forall plain_word args →
  parse_command (join_spaces (word :: args)) = Ok (mkCommand word args)
  ∧ matches (match_on_cmd_starts_with (word :: args)) word args = true.
Proof.
  intros Hword Hargs. split.
  - unfold parse_command, Shlex.split.
    by rewrite strip_join_spaces, read_tokens_join_spaces.
  - cbn. apply bool_decide_eq_true. f_equal. by apply take_ge.
Qed.

Lemma parse_command_join_spaces_witness :
  parse_command (join_spaces ["configure"; "terminal"; "foo"])
  = Ok (mkCommand "configure" ["terminal"; "foo"]).
Proof.
  apply (parse_command_join_spaces "configure" ["terminal"; "foo"]).
  - split; [discriminate|]. apply (bool_decide_unpack _). vm_compute. exact I.
  - repeat constructor; try discriminate;
      apply (bool_decide_unpack _); vm_compute; exact I.
Defined.

(** ** The client, further *)

(** X5: a line returned by [Client.prompt] is the next line of stdin
    without its trailing whitespace (the line terminator included); the
    call consumes that one line and writes the prompt text once. *)
Theorem prompt_result_rstripped (text : string) (e : bool) (c : Client)
    (result : string) (c' : Client) :
  Client.prompt text e c = Returned result c' →
  no_trailing_space result
  ∧ ∃ raw, stdin c = Line raw :: stdin c'
           ∧ result = rstrip raw
           ∧ stdout c' = stdout c ++ [text].
Proof.
  intros Hret. destruct (stdin c) as [|[raw|err] rest] eqn:Hin.
  - by rewrite (prompt_waiting _ _ _ Hin) in Hret.
  - rewrite (prompt_line _ _ _ _ _ Hin) in Hret. inversion Hret; subst. split.
    + intros ch. unfold rstrip. rewrite chars_str. apply rstrip_chars_last.
    + by exists raw.
  - by rewrite (prompt_read_fails _ _ _ _ _ Hin) in Hret.
Qed.

Lemma prompt_result_rstripped_witness :
  no_trailing_space "pass".
Proof.
  apply (prompt_result_rstripped "Password: " false
           (mkClient true true [typed "pass"] [] [])
           "pass" (mkClient true true [] ["Password: "] [false; true])).
  vm_compute. reflexivity.
Defined.

(** ** Matchers, further *)

(** X6: the edge cases of [match_on_cmd_starts_with]: with no expected
    token it accepts every input, and with a single one it answers like
    [match_on_cmd] of that token. *)
Theorem match_on_cmd_starts_with_edges (cmd : string) (args : list string) :
  matches (match_on_cmd_starts_with []) cmd args = true
  ∧ (∀ expected, matches (match_on_cmd_starts_with [expected]) cmd args
                 = matches (match_on_cmd expected) cmd args).
Proof.
  split; [done|]. intros expected. cbn.
  apply bool_decide_ext. rewrite take_0. split; congruence.
Qed.

Lemma take_app_prefix {A} (l e1 e2 : list A) :
  take (length (e1 ++ e2)) l = e1 ++ e2 → take (length e1) l = e1.
Proof.
  intros Htake.
  assert (take (length e1) (take (length (e1 ++ e2)) l) = take (length e1) l)
    as <-.
  { rewrite take_take. f_equal. rewrite length_app. lia. }
  rewrite Htake. by rewrite take_app_length.
Qed.

(** X7: a longer expected sequence is more specific: whatever
    [match_on_cmd_starts_with (expected ++ more)] accepts is accepted by
    [match_on_cmd_starts_with expected], and whatever
    [match_on_cmd_starts_with (word :: more)] accepts is accepted by
    [match_on_cmd word]. *)
Theorem match_on_cmd_starts_with_specific (cmd : string) (args : list string) :
  (∀ expected more,
     matches (match_on_cmd_starts_with (expected ++ more)) cmd args = true →
     matches (match_on_cmd_starts_with expected) cmd args = true)
  ∧ (∀ word more,
       matches (match_on_cmd_starts_with (word :: more)) cmd args = true →
       matches (match_on_cmd word) cmd args = true).
Proof.
  split.
  - intros expected more. cbn. rewrite !bool_decide_eq_true.
    apply take_app_prefix.
  - intros word more. cbn. rewrite !bool_decide_eq_true. congruence.
Qed.

Lemma match_on_cmd_starts_with_specific_witness :
  matches (match_on_cmd_starts_with ["configure"]) "configure" ["terminal"; "x"]
  = true
  ∧ matches (match_on_cmd "configure") "configure" ["terminal"; "x"] = true.
Proof.
  split.
  - apply (proj1 (match_on_cmd_starts_with_specific
                    "configure" ["terminal"; "x"]) ["configure"] ["terminal"]).
    reflexivity.
  - apply (proj2 (match_on_cmd_starts_with_specific
                    "configure" ["terminal"; "x"]) "configure" ["terminal"]).
    reflexivity.
Defined.

(** ** Dispatch, further *)

Section DispatchFurther.
Context `{ReplClasses ReplClass}.
Implicit Types (w : World ReplClass) (ms : list (KnownMatcher ReplClass)).

(** Matchers that reject are tried and passed over. *)
Lemma handle_command_loop_skip pre ms unk cmd args w :
  Forall (rejects cmd args) pre →
  handle_command_loop (pre ++ ms) unk cmd args w
  = handle_command_loop ms unk cmd args
      (mkWorld (client w) (heap w) (printed w ++ trying pre)).
Proof.
  intros Hall. revert w. induction Hall as [|[m h] pre Hm _ IH]; intros w.
  - cbn. rewrite app_nil_r. by destruct w.
  - cbn. unfold mbind, M_bind, print, modify. unfold rejects in Hm.
    cbn in Hm. rewrite Hm. rewrite IH. cbn.
    by rewrite <- (assoc_L (++)).
Qed.

(** The first matcher of a list that accepts, with those before it. *)
Lemma first_accepting ms cmd args :
  Exists (accepts cmd args) ms →
  ∃ pre km post,
    ms = pre ++ km :: post ∧ Forall (rejects cmd args) pre ∧ accepts cmd args km.
Proof.
  induction ms as [|km ms IH]; intros Hex; [by inversion Hex|].
  destruct (matches (matcher km) cmd args) eqn:Hkm.
  - exists [], km, ms. by repeat split.
  - destruct IH as (pre & km' & post & -> & Hpre & Hacc).
    { inversion Hex as [?? Hacc|]; subst; [|done].
      unfold accepts in Hacc. congruence. }
    exists (km :: pre), km', post. repeat split; [|done]. by constructor.
Qed.

(** The handler of an entry that an earlier entry always pre-empts plays
    no part in the dispatch. *)
Lemma handle_command_loop_shadowed ms1 m2 h2 h2' ms2 unk cmd args w :
  (matches m2 cmd args = true → Exists (accepts cmd args) ms1) →
  handle_command_loop (ms1 ++ mkKnownMatcher m2 h2 :: ms2) unk cmd args w
  = handle_command_loop (ms1 ++ mkKnownMatcher m2 h2' :: ms2) unk cmd args w.
Proof.
  intros Hshadow.
  destruct (decide (Exists (λ km, matches (matcher km) cmd args = true) ms1))
    as [Hex|Hnone].
  - destruct (first_accepting ms1 cmd args Hex)
      as (pre & [m h] & post & -> & Hpre & Hacc).
    rewrite <- !(assoc_L (++)). cbn [app].
    rewrite !(handle_command_loop_skip pre) by done. cbn.
    unfold mbind, M_bind, print, modify. unfold accepts in Hacc.
    cbn in Hacc. by rewrite Hacc.
  - assert (Hrej : Forall (rejects cmd args) ms1).
    { apply Forall_forall. intros km Hin. unfold rejects.
      destruct (matches (matcher km) cmd args) eqn:Hkm; [|done].
      destruct Hnone. apply Exists_exists. by exists km. }
    rewrite !(handle_command_loop_skip ms1) by done. cbn.
    unfold mbind, M_bind, print, modify.
    destruct (matches m2 cmd args) eqn:Hm2; [|done].
    destruct Hnone. by apply Hshadow.
Qed.

(** X8: a handler registered with [match_on_cmd_starts_with (word :: more)]
    after a handler registered with [match_on_cmd word] is never called:
    for every input, [handle_command] behaves the same whatever that
    handler is. *)
Theorem handle_command_prefix_after_word_is_dead cls ms1 word h1 ms2 more
    h2 h2' ms3 unk cmd args w :
  handle_command cls
    (ms1 ++ mkKnownMatcher (match_on_cmd word) h1
         :: ms2 ++ mkKnownMatcher (match_on_cmd_starts_with (word :: more)) h2
         :: ms3) unk cmd args w
  = handle_command cls
      (ms1 ++ mkKnownMatcher (match_on_cmd word) h1
           :: ms2 ++ mkKnownMatcher (match_on_cmd_starts_with (word :: more)) h2'
           :: ms3) unk cmd args w.
Proof.
  unfold handle_command, mbind, M_bind, print, modify.
  assert (Hgroup : ∀ rest,
            ms1 ++ mkKnownMatcher (match_on_cmd word) h1 :: ms2 ++ rest
            = (ms1 ++ mkKnownMatcher (match_on_cmd word) h1 :: ms2) ++ rest).
  { intros rest. by rewrite <- (assoc_L (++)). }
  rewrite !Hgroup.
  apply handle_command_loop_shadowed. intros Hacc.
  apply Exists_app. right. apply Exists_cons. left.
  unfold accepts. cbn. cbn in Hacc.
  rewrite bool_decide_eq_true in *. congruence.
Qed.

(** X9: [_register_handler] appends, and dispatch tries the entries from
    the front: registering one more pair changes nothing for the inputs
    that an earlier pair accepts, and for the others the new pair is
    tried last, right before the fallback. *)
Theorem handle_command_after_register cls ms m h unk cmd args w :
  (Exists (accepts cmd args) ms →
   handle_command cls (_register_handler ms m h) unk cmd args w
   = handle_command cls ms unk cmd args w)
  ∧ (Forall (rejects cmd args) ms →
     handle_command cls (_register_handler ms m h) unk cmd args w
     = (print (DTryingMatcher (describe m));;
        if matches m cmd args then print DMatched;; h cmd args
        else unk cmd args)
         (mkWorld (client w) (heap w)
            (printed w ++ [DHandleCommand (class_name cls) cmd args]
             ++ trying ms))).
Proof.
  unfold handle_command, _register_handler. split.
  - intros Hex.
    destruct (first_accepting ms cmd args Hex)
      as (pre & [m' h'] & post & -> & Hpre & Hacc).
    unfold mbind, M_bind, print, modify.
    rewrite <- !(assoc_L (++)). cbn [app].
    rewrite !(handle_command_loop_skip pre) by done. cbn.
    unfold mbind, M_bind, print, modify. unfold accepts in Hacc.
    cbn in Hacc. by rewrite Hacc.
  - intros Hrej. unfold mbind at 1, M_bind at 1, print at 1, modify at 1.
    rewrite (handle_command_loop_skip ms) by done. cbn [client heap printed].
    rewrite <- (assoc_L (++)). reflexivity.
Qed.

End DispatchFurther.

(** ** The run loop, further *)

Section RunFurther.
Context `{ReplClasses ReplClass}.
Implicit Types (w : World ReplClass) (obj : Repl ReplClass)
  (hc : ReplId → Handler ReplClass).

(** X10: a blank line only costs a prompt: the turn returns with the
    prompt written and the line consumed, nothing printed, the REPL
    objects untouched and [handle_command] not called; [run] goes on with
    the next line. *)
Theorem run_skips_blank_line hc self obj w raw rest :
  heap w !! self = Some obj →
  running obj = true →
  stdin (client w) = Line raw :: rest →
  strip raw = EmptyString →
  let w' := mkWorld (prompted (prompt obj) true rest (client w))
              (heap w) (printed w) in
  run_iteration hc self obj w = Returned () w'
  ∧ (∀ fuel, run (S fuel) hc self w = run fuel hc self w').
Proof.
  intros Hobj Hrun Hin Hblank w'.
  assert (Hiter : run_iteration hc self obj w = Returned () w').
  { unfold run_iteration. unfold mbind at 1, M_bind at 1.
    rewrite (on_client_prompt_line _ _ _ _ Hin).
    by rewrite strip_rstrip, Hblank. }
  split; [done|]. intros fuel.
  by rewrite (run_unfold _ _ _ _ _ Hobj Hrun), Hiter.
Qed.

(** X11: when the exit command is disabled, or is another word than the
    one typed, the turn is the call of [handle_command] on the parsed
    word and arguments, made after the line has been printed; [run] goes
    on when that call returns and ends with its exception when it
    raises. *)
Theorem run_dispatches_other_words hc self obj w raw rest word args :
  heap w !! self = Some obj →
  running obj = true →
  stdin (client w) = Line raw :: rest →
  parse_command raw = Ok (mkCommand word args) →
  exit_command obj ≠ Some word →
  let w1 := mkWorld (prompted (prompt obj) true rest (client w)) (heap w)
              (printed w ++ [DLine (strip raw)]) in
  run_iteration hc self obj w = hc self word args w1
  ∧ (∀ fuel w2, hc self word args w1 = Returned () w2 →
       run (S fuel) hc self w = run fuel hc self w2)
  ∧ (∀ fuel e w2, hc self word args w1 = Raised e w2 →
       run (S fuel) hc self w = Some (Raised e w2)).
Proof.
  intros Hobj Hrun Hin Hparse Hexit w1.
  assert (Hiter : run_iteration hc self obj w = hc self word args w1).
  { rewrite (run_iteration_parsed _ _ _ _ raw rest word args Hin).
    - rewrite strip_rstrip. fold w1.
      destruct (exit_command obj) as [exit_word|]; [|done].
      rewrite bool_decide_eq_false_2; [done|]. congruence.
    - unfold parse_command in *. by rewrite strip_strip, strip_rstrip. }
  split; [done|]. split.
  - intros fuel w2 Hret.
    by rewrite (run_unfold _ _ _ _ _ Hobj Hrun), Hiter, Hret.
  - intros fuel e w2 Hraise.
    by rewrite (run_unfold _ _ _ _ _ Hobj Hrun), Hiter, Hraise.
Qed.

(** X12: a read that fails ends [run] with the exception of the read:
    the prompt has been written, nothing is parsed or dispatched, and
    the REPL objects are untouched. *)
Theorem run_read_failure_propagates hc self obj w err rest fuel :
  heap w !! self = Some obj →
  running obj = true →
  stdin (client w) = ReadFails err :: rest →
  run (S fuel) hc self w
  = Some (Raised err
            (mkWorld (prompt_interrupted (prompt obj) true rest (client w))
               (heap w) (printed w))).
Proof.
  intros Hobj Hrun Hin. rewrite (run_unfold _ _ _ _ _ Hobj Hrun).
  unfold run_iteration. unfold mbind at 1, M_bind at 1. unfold on_client.
  by rewrite (prompt_read_fails _ _ _ _ _ Hin).
Qed.

(** What a turn that returns leaves of the object [self], when the exit
    command is disabled and the handlers leave that object alone. *)
Lemma run_iteration_keeps_self hc self obj w w' :
  exit_command obj = None →
  (∀ cmd args w1 w2, hc self cmd args w1 = Returned () w2 →
                     heap w2 !! self = heap w1 !! self) →
  run_iteration hc self obj w = Returned () w' →
  heap w' !! self = heap w !! self.
Proof.
  intros Hexit Hkeep. unfold run_iteration.
  unfold mbind at 1, M_bind at 1, on_client.
  destruct (Client.prompt (prompt obj) true (client w)) as [line c'|e c'|c'];
    [|done..].
  case_bool_decide; [by intros [= <-]|].
  destruct (parse_command (strip line)) as [[word args]|e]; [|done].
  rewrite Hexit. unfold mbind, M_bind, print, modify.
  intros Hret. by rewrite (Hkeep _ _ _ _ Hret).
Qed.

(** X13: [run] returns only once [running] is false.  With the exit
    command disabled and handlers that leave the REPL object as it is
    (the base [Repl.handle_command], which only prints, for one), [run]
    never returns: it can only end with an exception or stay in a read. *)
Theorem run_never_returns_without_exit hc self :
  (∀ cmd args w1 w2, hc self cmd args w1 = Returned () w2 →
                     heap w2 !! self = heap w1 !! self) →
  ∀ fuel obj w w',
    heap w !! self = Some obj →
    running obj = true →
    exit_command obj = None →
    run fuel hc self w ≠ Some (Returned () w').
Proof.
  intros Hkeep. induction fuel as [|fuel IH]; intros obj w w' Hobj Hrun Hexit.
  - cbn. by rewrite Hobj, Hrun.
  - rewrite (run_unfold _ _ _ _ _ Hobj Hrun).
    destruct (run_iteration hc self obj w) as [[] w1|e w1|w1] eqn:Hiter;
      [|done..].
    apply (IH obj); [|done..].
    by rewrite (run_iteration_keeps_self _ _ _ _ _ Hexit Hkeep Hiter).
Qed.

(** X14: when the handler that dispatch selects for a line stops the
    REPL it serves (as the handler of [EndCommand] does with
    [repl.exit()]), the current line is still handled to its end and
    [run] returns right after it: no further line is read. *)
Theorem run_returns_after_handler_exit cls pre m post unk self obj w raw rest
    word args :
  heap w !! self = Some obj →
  running obj = true →
  stdin (client w) = Line raw :: rest →
  parse_command raw = Ok (mkCommand word args) →
  exit_command obj ≠ Some word →
  Forall (rejects word args) pre →
  matches m word args = true →
  ∀ fuel,
    run (S fuel)
      (λ repl, handle_command cls
                 (pre ++ mkKnownMatcher m (λ _ _, exit repl) :: post) unk)
      self w
    = Some (Returned ()
              (mkWorld (prompted (prompt obj) true rest (client w))
                 (exit_heap self (heap w))
                 (printed w ++ [DLine (strip raw)]
                  ++ [DHandleCommand (class_name cls) word args]
                  ++ trying pre ++ [DTryingMatcher (describe m); DMatched]))).
Proof.
  intros Hobj Hrun Hin Hparse Hexit Hpre Hm fuel.
  rewrite (run_unfold _ _ _ _ _ Hobj Hrun).
  rewrite (run_iteration_parsed _ _ _ _ raw rest word args Hin).
  2:{ unfold parse_command in *. by rewrite strip_strip, strip_rstrip. }
  assert (Hno : (match exit_command obj with
                 | Some exit_word =>
                     if bool_decide (word = exit_word) then exit self
                     else handle_command cls
                            (pre ++ mkKnownMatcher m (λ _ _, exit self) :: post)
                            unk word args
                 | None => handle_command cls
                             (pre ++ mkKnownMatcher m (λ _ _, exit self) :: post)
                             unk word args
                 end)
                = handle_command cls
                    (pre ++ mkKnownMatcher m (λ _ _, exit self) :: post)
                    unk word args).
  { destruct (exit_command obj) as [exit_word|]; [|done].
    rewrite bool_decide_eq_false_2; [done|]. congruence. }
  rewrite Hno. unfold handle_command.
  unfold mbind at 1, M_bind at 1, print at 1, modify at 1.
  rewrite handle_command_loop_first_match by done.
  cbn [client heap printed exit modify].
  rewrite strip_rstrip, <- !(assoc_L (++)).
  apply run_not_running with (obj := set_running false obj); [|done].
  cbn [heap]. by apply lookup_exit_heap_eq.
Qed.

End RunFurther.

(** ** The REPL stack, further *)

Section StackFurther.
Context `{ReplClasses ReplClass}.
Implicit Types (w : World ReplClass) (obj : Repl ReplClass)
  (h : list (Repl ReplClass)) (cls : ReplClass).

Lemma exit_heap_idemp self h : exit_heap self (exit_heap self h) = exit_heap self h.
Proof.
  apply list_eq. intros i. rewrite !lookup_exit_heap.
  destruct (h !! i) as [obj|]; [|done]. cbn. by case_bool_decide.
Qed.

(** X15: [exit()] changes the [running] flag of its own REPL and nothing
    else -- not the other REPLs, not the client, not the console -- and a
    second call changes nothing more. *)
Theorem exit_only_stops_self self w :
  ∃ w', exit self w = Returned () w'
        ∧ client w' = client w
        ∧ printed w' = printed w
        ∧ length (heap w') = length (heap w)
        ∧ (∀ obj, heap w !! self = Some obj →
             heap w' !! self = Some (set_running false obj))
        ∧ (∀ i, i ≠ self → heap w' !! i = heap w !! i)
        ∧ exit self w' = Returned () w'.
Proof.
  eexists. split; [reflexivity|]. cbn.
  split; [done|]. split; [done|]. split; [|split; [|split]].
  - unfold exit_heap. apply length_alter.
  - intros obj Hobj. by apply lookup_exit_heap_eq.
  - intros i Hi. by apply lookup_exit_heap_ne.
  - unfold exit, modify. cbn. by rewrite exit_heap_idemp.
Qed.

(** X16: [exit_to_repl_class] called on a REPL that is already an
    instance of the class has no effect on any REPL, whatever the fuel:
    it only prints its headline. *)
Theorem exit_to_repl_class_already_there fuel self cls w obj :
  heap w !! self = Some obj →
  isinstance obj cls = true →
  exit_to_repl_class fuel self cls w
  = Some (mkWorld (client w) (heap w)
            (printed w ++ [DExitingUntil (class_name cls)])).
Proof.
  intros Hobj Hinst.
  rewrite (exit_to_repl_class_path fuel self cls w [] (Some self));
    [done|constructor|constructor|by exists obj|cbn; lia].
Qed.

Lemma enter_repl_returns self obj w prompt' repl_class exit_command' :
  heap w !! self = Some obj →
  enter_repl self prompt' repl_class exit_command' w
  = Returned (length (heap w))
      (mkWorld (client w)
         (heap w ++ [mkRepl exit_command' prompt' true (Some self)
                       (default (clazz obj) repl_class)])
         (printed w)).
Proof. intros Hobj. unfold enter_repl. by rewrite Hobj. Qed.

(** X17: the submenu pattern.  [enter_repl] adds one running REPL whose
    parent is the caller and starts nothing (no prompt is written, no
    input read, the existing REPLs are as they were); when the caller is
    an instance of [target] and the new class is not, [exit_to_repl_class
    target] called on the new REPL stops that REPL and no other. *)
Theorem enter_then_exit_to_parent_class self obj w prompt' child_class
    exit_command' target :
  heap w !! self = Some obj →
  isinstance obj target = true →
  issubclass child_class target = false →
  let child := length (heap w) in
  let new := mkRepl exit_command' prompt' true (Some self) child_class in
  ∃ w1,
    enter_repl self prompt' (Some child_class) exit_command' w = Returned child w1
    ∧ client w1 = client w
    ∧ printed w1 = printed w
    ∧ heap w1 !! child = Some new
    ∧ (∀ i, i < child → heap w1 !! i = heap w !! i)
    ∧ (∀ fuel, 1 ≤ fuel →
         ∃ w2, exit_to_repl_class fuel child target w1 = Some w2
               ∧ heap w2 !! child = Some (set_running false new)
               ∧ (∀ i, i < child → heap w2 !! i = heap w !! i)).
Proof.
  intros Hobj Hinst Hsub child new.
  assert (Hself : self < child) by (by apply lookup_lt_Some in Hobj).
  assert (Hnew : (heap w ++ [new]) !! child = Some new).
  { by rewrite lookup_app_r, Nat.sub_diag. }
  assert (Hold : ∀ i, i < child → (heap w ++ [new]) !! i = heap w !! i).
  { intros i Hi. by rewrite lookup_app_l. }
  exists (mkWorld (client w) (heap w ++ [new]) (printed w)).
  split; [by rewrite (enter_repl_returns _ _ _ _ _ _ Hobj)|].
  cbn [client heap printed].
  split; [done|]. split; [done|]. split; [done|]. split; [done|].
  intros fuel Hfuel. eexists.
  split; [apply (exit_to_repl_class_path _ _ _ _ [child] (Some self))|].
  - apply (parent_path_up _ child new); [done|]. constructor.
  - repeat constructor. by exists new.
  - exists obj. split; [|done]. cbn. by rewrite Hold.
  - cbn. lia.
  - cbn [heap]. split.
    + by rewrite lookup_exit_all, bool_decide_eq_true_2, Hnew
        by (apply elem_of_cons; by left).
    + intros i Hi. rewrite lookup_exit_all, bool_decide_eq_false_2, Hold.
      * by destruct (heap w !! i).
      * done.
      * rewrite elem_of_cons, elem_of_nil. lia.
Qed.

Lemma heap_wf_exit_heap self h : heap_wf h → heap_wf (exit_heap self h).
Proof.
  intros Hwf i obj' p Hobj' Hp. rewrite lookup_exit_heap in Hobj'.
  destruct (h !! i) as [obj|] eqn:Hobj; [|done]. cbn in Hobj'.
  apply (Hwf i obj p Hobj).
  case_bool_decide; inversion Hobj'; by subst.
Qed.

Lemma heap_wf_snoc h obj :
  heap_wf h →
  (∀ p, parent_repl obj = Some p → p < length h) →
  heap_wf (h ++ [obj]).
Proof.
  intros Hwf Hparent i obj' p Hobj' Hp.
  destruct (decide (i < length h)) as [Hi|Hi].
  - rewrite lookup_app_l in Hobj' by done. by apply (Hwf i obj' p).
  - rewrite lookup_app_r in Hobj' by lia.
    destruct (i - length h) as [|n] eqn:Hn; [|by destruct n].
    cbn in Hobj'. inversion Hobj'; subst. specialize (Hparent p Hp). lia.
Qed.

Lemma heap_wf_exit_to_repl_class_loop cls fuel :
  ∀ current w w',
    heap_wf (heap w) →
    exit_to_repl_class_loop fuel cls current w = Some w' →
    heap_wf (heap w').
Proof.
  induction fuel as [|fuel IH]; intros current w w' Hwf Hloop.
  - destruct current as [id|]; cbn in Hloop; [|by inversion Hloop; subst].
    destruct (heap w !! id) as [obj|]; [|by inversion Hloop; subst].
    destruct (isinstance obj cls); [by inversion Hloop; subst|done].
  - destruct current as [id|]; cbn in Hloop; [|by inversion Hloop; subst].
    destruct (heap w !! id) as [obj|]; [|by inversion Hloop; subst].
    destruct (isinstance obj cls); [by inversion Hloop; subst|].
    apply IH in Hloop; [done|]. cbn. by apply heap_wf_exit_heap.
Qed.

(** X18: every store that the package builds is well formed: starting
    from no REPL at all, [Client.enter_repl], [Repl.enter_repl], [exit]
    and [exit_to_repl_class] all keep each [parent_repl] referring to a
    REPL created earlier. *)
Theorem heap_wf_preserved w :
  heap_wf ([] : list (Repl ReplClass))
  ∧ (heap_wf (heap w) →
     (∀ prompt' repl_class exit_command' id w',
        Client_enter_repl prompt' repl_class exit_command' w = Returned id w' →
        heap_wf (heap w'))
     ∧ (∀ self prompt' repl_class exit_command' id w',
          enter_repl self prompt' repl_class exit_command' w = Returned id w' →
          heap_wf (heap w'))
     ∧ (∀ self w', exit self w = Returned () w' → heap_wf (heap w'))
     ∧ (∀ fuel self cls w',
          exit_to_repl_class fuel self cls w = Some w' → heap_wf (heap w'))).
Proof.
  split; [by intros i obj p Hobj|]. intros Hwf.
  split; [|split; [|split]].
  - intros prompt' repl_class exit_command' id w' [= _ <-]. cbn.
    by apply heap_wf_snoc.
  - intros self prompt' repl_class exit_command' id w'. unfold enter_repl.
    destruct (heap w !! self) as [obj|] eqn:Hobj; [|done].
    intros [= _ <-]. cbn. apply heap_wf_snoc; [done|].
    cbn. intros p [= <-]. by apply lookup_lt_Some in Hobj.
  - intros self w' [= <-]. cbn. by apply heap_wf_exit_heap.
  - intros fuel self cls w'. unfold exit_to_repl_class.
    by apply heap_wf_exit_to_repl_class_loop.
Qed.

(** In a well-formed store the walk from any REPL is finite: it passes
    at most [id + 1] objects. *)
Lemma heap_wf_parent_path cls h :
  heap_wf h →
  ∀ bound id,
    id < bound → id < length h →
    ∃ ids stop,
      parent_path h (Some id) ids stop
      ∧ Forall (is_instance h cls false) ids
      ∧ walk_stops h cls stop
      ∧ length ids ≤ S id.
Proof.
  intros Hwf. induction bound as [|bound IH]; intros id Hbound Hid; [lia|].
  destruct (lookup_lt_is_Some_2 h id Hid) as [obj Hobj].
  destruct (isinstance obj cls) eqn:Hinst.
  - exists [], (Some id). split; [constructor|]. split; [constructor|].
    split; [by exists obj|cbn; lia].
  - destruct (parent_repl obj) as [p|] eqn:Hp.
    + assert (p < id) by (by apply (Hwf id obj p)).
      destruct (IH p) as (ids & stop & Hpath & Hall & Hstop & Hlen); [lia..|].
      exists (id :: ids), stop. split.
      { apply (parent_path_up _ id obj); [done|]. by rewrite Hp. }
      split; [constructor; [by exists obj|done]|].
      split; [done|cbn; lia].
    + exists [id], None. split.
      { apply (parent_path_up _ id obj); [done|]. rewrite Hp. constructor. }
      split; [repeat constructor; by exists obj|]. split; [done|cbn; lia].
Qed.

Lemma heap_wf_exit_all ids h : heap_wf h → heap_wf (exit_all ids h).
Proof.
  unfold exit_all. revert h. induction ids as [|x ids IH]; intros h Hwf; cbn;
    [done|].
  apply IH. by apply heap_wf_exit_heap.
Qed.

Lemma length_exit_all ids h : length (exit_all ids h) = length h.
Proof.
  unfold exit_all. revert h. induction ids as [|x ids IH]; intros h; cbn;
    [done|].
  rewrite IH. unfold exit_heap. apply length_alter.
Qed.

(** X19: in a well-formed store [exit_to_repl_class] always terminates:
    called on the REPL [self], [self + 1] turns of its loop are enough,
    more fuel gives the same result, and the resulting store is well
    formed, of the same size, with the same client. *)
Theorem exit_to_repl_class_terminates self cls w :
  heap_wf (heap w) →
  ∃ w', (∀ fuel, S self ≤ fuel → exit_to_repl_class fuel self cls w = Some w')
        ∧ heap_wf (heap w')
        ∧ length (heap w') = length (heap w)
        ∧ client w' = client w.
Proof.
  intros Hwf. destruct (decide (self < length (heap w))) as [Hself|Hself].
  - destruct (heap_wf_parent_path cls (heap w) Hwf (S self) self)
      as (ids & stop & Hpath & Hall & Hstop & Hlen); [lia|done|].
    eexists. split; [|split; [|split]].
    + intros fuel Hfuel.
      apply (exit_to_repl_class_path fuel self cls w ids stop); [done..|lia].
    + cbn. by apply heap_wf_exit_all.
    + cbn. apply length_exit_all.
    + done.
  - exists (mkWorld (client w) (heap w)
              (printed w ++ [DExitingUntil (class_name cls)])).
    split; [|by repeat split].
    intros fuel _. unfold exit_to_repl_class.
    destruct fuel; cbn; by rewrite lookup_ge_None_2 by lia.
Qed.

End StackFurther.

(** ** Commands, further *)

Lemma Sorted_fmap_inv {A B} (f : A → B) (R : relation B) (l : list A) :
  Sorted R (f <$> l) → Sorted (λ x y, R (f x) (f y)) l.
Proof.
  induction l as [|x l IH]; [constructor|]. cbn. intros Hs.
  apply Sorted_inv in Hs as [Hs Hhd]. constructor; [by apply IH|].
  destruct l; [constructor|]. cbn in Hhd. apply HdRel_inv in Hhd.
  by constructor.
Qed.

Section StableSort.
Context {A : Type} (key : A → Z) (R : relation A).

Lemma insert_sorted_key_then x l :
  Forall (R x) l →
  Sorted (key_then key R) l →
  Sorted (key_then key R) (insert_sorted Z.leb key x l).
Proof.
  intros Hx Hl. induction Hl as [|y l Hl IH Hhd]; cbn.
  - by repeat constructor.
  - apply Forall_cons in Hx as [Hxy Hxl].
    destruct (key x <=? key y)%Z eqn:Hle.
    + constructor; [by constructor|]. constructor.
      apply Z.leb_le in Hle. unfold key_then.
      destruct (decide (key x = key y)); [by right|left; lia].
    + apply Z.leb_gt in Hle. constructor; [by apply IH|].
      destruct Hhd as [|z l' Hyz]; cbn.
      * constructor. by left.
      * destruct (key x <=? key z)%Z; constructor; [by left|done].
Qed.

(** The sort is stable: elements of equal key stay in the order [R] in
    which the list had them. *)
Lemma sorted_key_then l :
  StronglySorted R l → Sorted (key_then key R) (sorted Z.leb key l).
Proof.
  induction 1 as [|x l Hl IH Hx]; [constructor|].
  change (sorted Z.leb key (x :: l))
    with (insert_sorted Z.leb key x (sorted Z.leb key l)).
  apply insert_sorted_key_then; [|done].
  by rewrite sorted_Permutation.
Qed.

End StableSort.

Section CommandsFurther.
Context `{ReplClasses ReplClass}.
Implicit Types (clazz : CommandClass ReplClass)
  (entries : list (string * Member ReplClass * HandlerData))
  (commands : list (CommandClass ReplClass)).

Lemma register_commands_Err self commands e :
  foldl (register_command_handlers self) (Err e) commands = Err e.
Proof. induction commands as [|c commands IH]; [done|]. exact IH. Qed.

Lemma register_commands_Ok self commands callss :
  Forall2 (λ c calls, register_handlers c = Ok calls) commands callss →
  ∀ self_matchers,
    foldl (register_command_handlers self) (Ok self_matchers) commands
    = Ok (self_matchers ++ concat (map (map (wrapped self)) callss)).
Proof.
  induction 1 as [|c calls commands callss Hc _ IH]; intros self_matchers.
  - cbn. by rewrite app_nil_r.
  - assert (Hstep : register_command_handlers self (Ok self_matchers) c
                    = Ok (self_matchers ++ map (wrapped self) calls)).
    { unfold register_command_handlers. cbn. rewrite Hc. cbn.
      by rewrite _wrapped_register_all_app. }
    cbn [foldl map concat]. rewrite Hstep, IH.
    by rewrite <- (assoc_L (++)).
Qed.

(** X20: the dispatch list of a [CommandBasedRepl] is the concatenation,
    in the order of the commands, of what each command registers, each
    handler bound to the REPL; and when the [register_handlers] of a
    command raises, after commands that do not, building the list ends
    with that exception. *)
Theorem CommandBasedRepl_matchers_concat self commands :
  (∀ callss,
     Forall2 (λ c calls, register_handlers c = Ok calls) commands callss →
     CommandBasedRepl_matchers self commands
     = Ok (concat (map (map (wrapped self)) callss)))
  ∧ (∀ before c after callss e,
       commands = before ++ c :: after →
       Forall2 (λ c calls, register_handlers c = Ok calls) before callss →
       register_handlers c = Err e →
       CommandBasedRepl_matchers self commands = Err e).
Proof.
  split.
  - intros callss Hall.
    apply (register_commands_Ok self commands callss Hall []).
  - intros before c after callss e -> Hbefore Hc.
    change (foldl (register_command_handlers self) (Ok [])
              (before ++ c :: after) = Err e).
    rewrite foldl_app, (register_commands_Ok self before callss Hbefore).
    assert (Hstep : ∀ self_matchers,
              register_command_handlers self (Ok self_matchers) c = Err e).
    { intros self_matchers. unfold register_command_handlers. cbn.
      by rewrite Hc. }
    cbn [foldl]. rewrite Hstep. apply register_commands_Err.
Qed.

(** X21: a class without any handler method is accepted by [command]: no
    entry is kept, and the wrapped class has the given name and help text
    and registers exactly what the decorated class registers itself. *)
Theorem command_without_handler_methods name help_text clazz :
  (∀ n m d, ¬ handler_method (attributes clazz) n m d) →
  command_entries clazz = Ok []
  ∧ ∃ wrapped_clazz,
      command name help_text clazz = Ok wrapped_clazz
      ∧ get_name wrapped_clazz = Some name
      ∧ get_help_description wrapped_clazz = Some help_text
      ∧ register_handlers wrapped_clazz = register_handlers clazz.
Proof.
  intros Hnone.
  assert (Hempty : handlers_with_data clazz = []).
  { destruct (handlers_with_data clazz) as [|[[n m] d] l] eqn:Hl; [done|].
    destruct (Hnone n m d). apply elem_of_handlers_with_data.
    rewrite Hl. by left. }
  assert (Hentries : command_entries clazz = Ok []).
  { unfold command_entries. by rewrite Hempty. }
  split; [done|]. eexists.
  split; [by apply command_of_entries|]. cbn.
  split; [done|]. split; [done|].
  unfold _Wrapped_register_handlers.
  destruct (register_handlers clazz) as [calls|e]; cbn; [|done].
  by rewrite app_nil_r.
Qed.

(** X22: handler methods that declare the same order are registered in
    the order of their names: the entries that [command] keeps for a
    class whose handler methods all declare an order are sorted by order,
    then by method name. *)
Theorem command_equal_orders_by_name clazz :
  (∀ n m d, handler_method (attributes clazz) n m d → is_Some (hd_order d)) →
  ∃ entries,
    command_entries clazz = Ok entries
    ∧ Sorted order_then_name entries.
Proof.
  intros Hordered. eexists. split.
  - apply command_entries_ordered. apply Forall_forall.
    intros [[n m] d] Hin. apply elem_of_handlers_with_data in Hin.
    by apply (Hordered n m d).
  - apply (sorted_key_then order_key (λ e1 e2, String.le e1.1.1 e2.1.1)).
    apply Sorted_StronglySorted.
    { intros e1 e2 e3. apply (transitivity (R := String.le)). }
    apply (Sorted_fmap_inv (λ entry, entry.1.1) String.le).
    change (Sorted String.le (entry_names (handlers_with_data clazz))).
    rewrite handlers_with_data_names. apply getmembers_names_Sorted.
Qed.

Lemma getattr_Wrapped_method clazz n :
  n ∈ _Wrapped_method_names →
  getattr (_Wrapped_attributes clazz) n = Some _Wrapped_method.
Proof.
  unfold _Wrapped_method_names, getattr, _Wrapped_attributes.
  rewrite !elem_of_cons, elem_of_nil. rewrite filter_app.
  intros [-> | [-> | [-> | []]]];
    rewrite !filter_cons, filter_nil; cbn;
    repeat first [rewrite decide_True by done | rewrite decide_False by done];
    by rewrite last_snoc.
Qed.

Lemma register_methods_shadowed clazz entries :
  Forall (λ entry, handler_method (attributes clazz) entry.1.1 entry.1.2 entry.2)
    entries →
  Exists (λ n, n ∈ _Wrapped_method_names) (entry_names entries) →
  register_methods (_Wrapped_attributes clazz) (entry_names entries)
  = Err (AttributeError "_handler").
Proof.
  intros Hall. induction Hall as [|[[n m] d] entries (Hget & _ & Hd) _ IH];
    [by inversion 1|].
  change (entry_names ((n, m, d) :: entries)) with (n :: entry_names entries).
  intros Hex. cbn [register_methods]. cbn in Hget, Hd.
  destruct (decide (n ∈ _Wrapped_method_names)) as [Hn|Hn].
  - by rewrite getattr_Wrapped_method.
  - rewrite getattr_Wrapped_attributes, Hget, Hd by done.
    rewrite IH; [done|]. by inversion Hex.
Qed.

Lemma command_entries_Ok_Permutation clazz entries :
  command_entries clazz = Ok entries → entries ≡ₚ handlers_with_data clazz.
Proof.
  unfold command_entries. destruct (forallb _ _).
  - intros [= <-]. apply sorted_Permutation.
  - destruct (existsb _ _); [done|]. by intros [= <-].
Qed.

(** X23: a handler method that bears the name of a method that [_Wrapped]
    defines itself ([get_name], [get_help_description],
    [register_handlers]) passes the decorator, but the wrapped class
    cannot register: its [register_handlers] looks the name up on the
    wrapped object, finds [_Wrapped]'s own method, which has no
    [_handler] attribute, and raises. *)
Theorem command_shadowed_handler_raises name help_text clazz entries
    inherited_calls n m d :
  command_entries clazz = Ok entries →
  register_handlers clazz = Ok inherited_calls →
  handler_method (attributes clazz) n m d →
  n ∈ _Wrapped_method_names →
  command name help_text clazz = Ok (wrapped_class name help_text clazz entries)
  ∧ register_handlers (wrapped_class name help_text clazz entries)
    = Err (AttributeError "_handler").
Proof.
  intros Hentries Hinherited Hmethod Hn.
  split; [by apply command_of_entries|].
  pose proof (command_entries_Ok_Permutation _ _ Hentries) as Hperm.
  cbn. unfold _Wrapped_register_handlers. rewrite Hinherited. cbn.
  rewrite register_methods_shadowed; [done| |].
  - rewrite Hperm. apply handlers_with_data_are_methods.
  - apply Exists_exists. exists n. split; [|done].
    unfold entry_names. apply list_elem_of_fmap. exists (n, m, d).
    split; [done|]. rewrite Hperm. by apply elem_of_handlers_with_data.
Qed.

End CommandsFurther.

(** ** The further properties on the example server *)

Lemma handle_command_after_register_witness :
  handle_command TopLevelRepl
    (_register_handler example_matchers (match_on_cmd "end")
       (λ _ _, exit 0))
    unknown_command "configure" ["terminal"] (top_level_session None [])
  = handle_command TopLevelRepl example_matchers unknown_command
      "configure" ["terminal"] (top_level_session None [])
  ∧ handle_command TopLevelRepl
      (_register_handler example_matchers (match_on_cmd "end") (λ _ _, exit 0))
      unknown_command "end" [] (top_level_session None [])
    = Returned ()
        (mkWorld (client (top_level_session None []))
           [mkRepl None "hostname> " false None TopLevelRepl]
           [DHandleCommand "TopLevelRepl" "end" [];
            DTryingMatcher "command starts with 'no snmp'";
            DTryingMatcher "command word == 'snmp'";
            DTryingMatcher "command starts with 'configure terminal'";
            DTryingMatcher "command word == 'configure'";
            DTryingMatcher "command word == 'end'";
            DMatched]).
Proof.
  split.
  - apply (proj1 (handle_command_after_register TopLevelRepl example_matchers
                    (match_on_cmd "end") (λ _ _, exit 0) unknown_command
                    "configure" ["terminal"] (top_level_session None []))).
    apply Exists_exists.
    exists (mkKnownMatcher (match_on_cmd_starts_with ["configure"; "terminal"])
              (call handle_configure_terminal 0)).
    split; [|reflexivity]. apply list_elem_of_lookup. by exists 2.
  - assert (Hrej : Forall (rejects "end" []) example_matchers)
      by (repeat constructor).
    exact (proj2 (handle_command_after_register TopLevelRepl example_matchers
                    (match_on_cmd "end") (λ _ _, exit 0) unknown_command
                    "end" [] (top_level_session None [])) Hrej).
Defined.

Lemma run_skips_blank_line_witness :
  run_iteration (λ _, Repl_handle_command) 0
    (mkRepl None "hostname> " true None TopLevelRepl)
    (top_level_session None [" "; "configure"])
  = Returned ()
      (mkWorld (mkClient true true [typed "configure"] ["hostname> "] [])
         [mkRepl None "hostname> " true None TopLevelRepl] []).
Proof.
  exact (proj1 (run_skips_blank_line (λ _, Repl_handle_command) 0
                  (mkRepl None "hostname> " true None TopLevelRepl)
                  (top_level_session None [" "; "configure"])
                  (" " +:+ String (ascii_of_nat 10) EmptyString)
                  [typed "configure"] eq_refl eq_refl eq_refl eq_refl)).
Defined.

Lemma run_dispatches_other_words_witness :
  run_iteration (λ _, Repl_handle_command) 0
    (mkRepl (Some "exit") "hostname> " true None TopLevelRepl)
    (top_level_session (Some "exit") ["show version"])
  = Returned ()
      (mkWorld (mkClient true true [] ["hostname> "] [])
         [mkRepl (Some "exit") "hostname> " true None TopLevelRepl]
         [DLine "show version"; DUnhandled "show" ["version"]]).
Proof.
  assert (Hexit : Some "exit" ≠ Some "show") by discriminate.
  exact (proj1 (run_dispatches_other_words (λ _, Repl_handle_command) 0
                  (mkRepl (Some "exit") "hostname> " true None TopLevelRepl)
                  (top_level_session (Some "exit") ["show version"])
                  ("show version" +:+ String (ascii_of_nat 10) EmptyString)
                  [] "show" ["version"]
                  eq_refl eq_refl eq_refl eq_refl Hexit)).
Defined.

Lemma run_read_failure_propagates_witness :
  run 1 (λ _, Repl_handle_command) 0 broken_session
  = Some (Raised (ConnectionLost "connection lost")
            (mkWorld (mkClient true true [] ["hostname> "] [])
               [mkRepl None "hostname> " true None TopLevelRepl] [])).
Proof.
  exact (run_read_failure_propagates (λ _, Repl_handle_command) 0
           (mkRepl None "hostname> " true None TopLevelRepl)
           broken_session (ConnectionLost "connection lost") [] 0
           eq_refl eq_refl eq_refl).
Defined.

Lemma run_never_returns_without_exit_witness :
  run 5 (λ _, Repl_handle_command) 0
    (top_level_session None ["exit"; "end"; "quit"])
  ≠ Some (Returned () (top_level_session None [])).
Proof.
  apply (run_never_returns_without_exit (λ _, Repl_handle_command) 0)
    with (obj := mkRepl None "hostname> " true None TopLevelRepl);
    [|reflexivity..].
  intros cmd args w1 w2 [= <-]. reflexivity.
Defined.

Lemma run_returns_after_handler_exit_witness :
  run 1 (λ repl, handle_command TopLevelRepl
                   ([] ++ mkKnownMatcher (match_on_cmd "end") (λ _ _, exit repl)
                       :: [])
                   unknown_command)
    0 (top_level_session None ["end"; "configure"])
  = Some (Returned ()
            (mkWorld (mkClient true true [typed "configure"] ["hostname> "] [])
               [mkRepl None "hostname> " false None TopLevelRepl]
               [DLine "end"; DHandleCommand "TopLevelRepl" "end" [];
                DTryingMatcher "command word == 'end'"; DMatched])).
Proof.
  assert (Hexit : None ≠ Some "end") by discriminate.
  exact (run_returns_after_handler_exit TopLevelRepl [] (match_on_cmd "end") []
           unknown_command 0
           (mkRepl None "hostname> " true None TopLevelRepl)
           (top_level_session None ["end"; "configure"])
           ("end" +:+ String (ascii_of_nat 10) EmptyString)
           [typed "configure"] "end" []
           eq_refl eq_refl eq_refl eq_refl Hexit (Forall_nil_2 _) eq_refl 0).
Defined.

Lemma exit_only_stops_self_witness :
  ∃ w', exit 1 nested_session = Returned () w'
        ∧ heap w' !! 1
          = Some (mkRepl None "hostname(config)> " false (Some 0)
                    ConfigureTerminalRepl)
        ∧ heap w' !! 0 = heap nested_session !! 0.
Proof.
  destruct (exit_only_stops_self 1 nested_session)
    as (w' & Hexit & _ & _ & _ & Hself & Hother & _).
  exists w'. split; [exact Hexit|]. split.
  - apply (Hself (mkRepl None "hostname(config)> " true (Some 0)
                    ConfigureTerminalRepl)). reflexivity.
  - apply Hother. discriminate.
Defined.

Lemma exit_to_repl_class_already_there_witness :
  exit_to_repl_class 0 2 CiscoRepl nested_session
  = Some (mkWorld (client nested_session) (heap nested_session)
            [DExitingUntil "CiscoRepl"]).
Proof.
  exact (exit_to_repl_class_already_there 0 2 CiscoRepl nested_session
           (mkRepl None "hostname(config)> " true (Some 1) ConfigureTerminalRepl)
           eq_refl eq_refl).
Defined.

Lemma enter_then_exit_to_parent_class_witness :
  ∃ w1, enter_repl 0 "hostname(config)> " (Some ConfigureTerminalRepl) None
          (top_level_session None []) = Returned 1 w1
        ∧ ∃ w2, exit_to_repl_class 1 1 TopLevelRepl w1 = Some w2
                ∧ heap w2 !! 1
                  = Some (mkRepl None "hostname(config)> " false (Some 0)
                            ConfigureTerminalRepl)
                ∧ heap w2 !! 0 = heap (top_level_session None []) !! 0.
Proof.
  destruct (enter_then_exit_to_parent_class 0
              (mkRepl None "hostname> " true None TopLevelRepl)
              (top_level_session None []) "hostname(config)> "
              ConfigureTerminalRepl None TopLevelRepl)
    as (w1 & Henter & _ & _ & _ & _ & Hexit); [reflexivity..|].
  exists w1. split; [exact Henter|].
  destruct (Hexit 1 (le_n 1)) as (w2 & Hcall & Hchild & Hold).
  exists w2. split; [exact Hcall|]. split; [exact Hchild|].
  apply Hold. cbn. lia.
Defined.

Lemma nested_session_wf : heap_wf (heap nested_session).
Proof.
  change (heap nested_session)
    with ((([] ++ [mkRepl None "hostname> " true None TopLevelRepl])
           ++ [mkRepl None "hostname(config)> " true (Some 0)
                 ConfigureTerminalRepl])
          ++ [mkRepl None "hostname(config)> " true (Some 1)
                ConfigureTerminalRepl]).
  repeat apply heap_wf_snoc; try (by intros i obj p Hobj);
    cbn; intros p [= <-]; lia.
Qed.

Lemma heap_wf_preserved_witness :
  heap_wf (exit_heap 1 (heap nested_session)).
Proof.
  apply (proj1 (proj2 (proj2 (proj2 (heap_wf_preserved nested_session)
                                nested_session_wf)))
           1 (mkWorld (client nested_session)
                (exit_heap 1 (heap nested_session)) (printed nested_session))).
  reflexivity.
Defined.

Lemma exit_to_repl_class_terminates_witness :
  ∃ w', exit_to_repl_class 3 2 TopLevelRepl nested_session = Some w'
        ∧ heap_wf (heap w').
Proof.
  destruct (exit_to_repl_class_terminates 2 TopLevelRepl nested_session
              nested_session_wf) as (w' & Hcall & Hwf & _).
  exists w'. split; [apply Hcall; lia|exact Hwf].
Defined.

Lemma CommandBasedRepl_matchers_concat_witness :
  (∃ snmp configure snmp_calls configure_calls,
     command "snmp" "change SNMP settings" SnmpCommand = Ok snmp
     ∧ command "configure" "configure settings" ConfigureCommand = Ok configure
     ∧ register_handlers snmp = Ok snmp_calls
     ∧ register_handlers configure = Ok configure_calls
     ∧ length snmp_calls = 2 ∧ length configure_calls = 2
     ∧ CommandBasedRepl_matchers 0 [snmp; configure]
       = Ok (map (wrapped 0) snmp_calls ++ map (wrapped 0) configure_calls))
  ∧ CommandBasedRepl_matchers 0
      [BareCommand;
       wrapped_class "name" "shows a name" ShadowedCommand
         [("get_name",
           handler_decorator None (match_on_cmd "name") (writes "a name"),
           mkHandlerData (match_on_cmd "name") None)];
       BareCommand]
    = Err (AttributeError "_handler").
Proof.
  assert (Hbare : Forall2 (λ c calls, register_handlers c = Ok calls)
                    [BareCommand] [[]]) by (repeat constructor).
  split.
  - eexists _, _, _, _.
    split; [reflexivity|]. split; [reflexivity|].
    split; [reflexivity|]. split; [reflexivity|].
    split; [reflexivity|]. split; [reflexivity|].
    etrans.
    + refine (proj1 (CommandBasedRepl_matchers_concat 0 _) [_; _] _).
      constructor; [reflexivity|]. constructor; [reflexivity|]. constructor.
    + reflexivity.
  - exact (proj2 (CommandBasedRepl_matchers_concat 0
                    [BareCommand;
                     wrapped_class "name" "shows a name" ShadowedCommand
                       [("get_name",
                         handler_decorator None (match_on_cmd "name")
                           (writes "a name"),
                         mkHandlerData (match_on_cmd "name") None)];
                     BareCommand])
             [BareCommand]
             (wrapped_class "name" "shows a name" ShadowedCommand
                [("get_name",
                  handler_decorator None (match_on_cmd "name") (writes "a name"),
                  mkHandlerData (match_on_cmd "name") None)])
             [BareCommand] [[]] (AttributeError "_handler")
             eq_refl Hbare eq_refl).
Defined.

Lemma command_without_handler_methods_witness :
  command_entries BareCommand = Ok [].
Proof.
  apply (command_without_handler_methods "bare" "does nothing" BareCommand).
  intros n m d Hmethod. handler_method_cases Hmethod.
Defined.

Lemma command_equal_orders_by_name_witness :
  ∃ entries, command_entries TiedCommand = Ok entries
             ∧ Sorted order_then_name entries
             ∧ order_key <$> entries = [1%Z; 1%Z]
             ∧ entry_names entries
               = ["handle_configure"; "handle_configure_terminal"].
Proof.
  destruct (command_equal_orders_by_name TiedCommand)
    as (entries & Hentries & Hsorted).
  - intros n m d Hmethod. handler_method_cases Hmethod; by eexists.
  - exists entries. split; [exact Hentries|]. split; [exact Hsorted|].
    assert (Hc : command_entries TiedCommand
                 = Ok [("handle_configure", handle_configure_same_order,
                        mkHandlerData (match_on_cmd "configure") (Some 1%Z));
                       ("handle_configure_terminal", handle_configure_terminal,
                        mkHandlerData
                          (match_on_cmd_starts_with ["configure"; "terminal"])
                          (Some 1%Z))])
      by (vm_compute; reflexivity).
    rewrite Hentries in Hc. inversion Hc. split; reflexivity.
Defined.

Lemma command_shadowed_handler_raises_witness :
  register_handlers
    (wrapped_class "name" "shows a name" ShadowedCommand
       [("get_name",
         handler_decorator None (match_on_cmd "name") (writes "a name"),
         mkHandlerData (match_on_cmd "name") None)])
  = Err (AttributeError "_handler").
Proof.
  apply (command_shadowed_handler_raises "name" "shows a name" ShadowedCommand
           _ [] "get_name"
           (handler_decorator None (match_on_cmd "name") (writes "a name"))
           (mkHandlerData (match_on_cmd "name") None)).
  - reflexivity.
  - reflexivity.
  - repeat split.
  - apply elem_of_cons. by left.
Defined.

(** ** Decorated methods, the echo switch, whole scripts *)




(** X25: [set_echo] returns the previous value and leaves [echo] at the
    requested one; it calls the channel only when the value changes, and
    changes nothing at all when it does not. *)
Theorem set_echo_switches_when_needed (e : bool) (c : Client) :
  ∃ c', Client.set_echo e c = Returned (echo c) c'
        ∧ echo c' = e
        ∧ (e = echo c → c' = c)
        ∧ (e ≠ echo c →
           channel_set_echo c' = channel_set_echo c ++ [e]
           ∧ line_mode c' = line_mode c
           ∧ stdin c' = stdin c
           ∧ stdout c' = stdout c).
Proof.
  destruct c as [e0 lm i o ch]. unfold Client.set_echo, mbind, M_bind, get.
  cbn. destruct e, e0; cbn; eexists; (split; [reflexivity|]); cbn;
    repeat split; done.
Qed.

Lemma set_echo_switches_when_needed_witness :
  ∃ c', Client.set_echo false (mkClient true true [] [] []) = Returned true c'
        ∧ channel_set_echo c' = [false].
Proof.
  destruct (set_echo_switches_when_needed false (mkClient true true [] [] []))
    as (c' & Hret & _ & _ & Hswitch).
  exists c'. split; [exact Hret|]. apply Hswitch. discriminate.
Defined.

Section Scripts.
Context `{ReplClasses ReplClass}.
Implicit Types (w : World ReplClass) (obj : Repl ReplClass)
  (hc : ReplId → Handler ReplClass).

Lemma run_iteration_other_word hc self obj w raw rest word args :
  stdin (client w) = Line raw :: rest →
  parse_command raw = Ok (mkCommand word args) →
  exit_command obj ≠ Some word →
  run_iteration hc self obj w
  = hc self word args
      (mkWorld (prompted (prompt obj) true rest (client w)) (heap w)
         (printed w ++ [DLine (strip raw)])).
Proof.
  intros Hin Hparse Hexit.
  rewrite (run_iteration_parsed _ _ _ _ raw rest word args Hin).
  - rewrite strip_rstrip.
    destruct (exit_command obj) as [exit_word|]; [|done].
    rewrite bool_decide_eq_false_2; [done|]. congruence.
  - unfold parse_command in *. by rewrite strip_strip, strip_rstrip.
Qed.

Lemma run_iteration_exit_word hc self obj w raw rest word args :
  stdin (client w) = Line raw :: rest →
  parse_command raw = Ok (mkCommand word args) →
  exit_command obj = Some word →
  run_iteration hc self obj w
  = Returned ()
      (mkWorld (prompted (prompt obj) true rest (client w))
         (exit_heap self (heap w)) (printed w ++ [DLine (strip raw)])).
Proof.
  intros Hin Hparse Hexit.
  rewrite (run_iteration_parsed _ _ _ _ raw rest word args Hin).
  - rewrite strip_rstrip, Hexit. by rewrite bool_decide_eq_true_2.
  - unfold parse_command in *. by rewrite strip_strip, strip_rstrip.
Qed.

(** X26: a whole session of the base [Repl].  The user types lines that
    parse to words other than the exit command, then a line whose word
    is the exit command.  [run] returns after as many turns as there are
    lines: each line was prompted for, printed and reported as unhandled,
    in the order typed; the exit line stopped the REPL; what was typed
    after it is still unread. *)
Theorem run_base_repl_script self obj exit_word
    (script : list (string * string * list string)) :
  exit_command obj = Some exit_word →
  running obj = true →
  Forall (λ line, parse_command line.1.1 = Ok (mkCommand line.1.2 line.2)
                  ∧ line.1.2 ≠ exit_word) script →
  ∀ raw_exit args_exit rest fuel w,
    parse_command raw_exit = Ok (mkCommand exit_word args_exit) →
    heap w !! self = Some obj →
    stdin (client w)
    = map (λ line, Line line.1.1) script ++ Line raw_exit :: rest →
    ∃ w',
      run (S (length script) + fuel) (λ _, Repl_handle_command) self w
      = Some (Returned () w')
      ∧ heap w' = exit_heap self (heap w)
      ∧ printed w'
        = printed w
          ++ flat_map (λ line, [DLine (strip line.1.1);
                                DUnhandled line.1.2 line.2]) script
          ++ [DLine (strip raw_exit)]
      ∧ stdin (client w') = rest
      ∧ stdout (client w')
        = stdout (client w) ++ replicate (S (length script)) (prompt obj)
      ∧ echo (client w') = echo (client w).
Proof.
  intros Hexit Hrun Hscript.
  induction Hscript as [|[[raw word] args] script [Hparse Hword] _ IH];
    intros raw_exit args_exit rest fuel w Hparse_exit Hobj Hin.
  - cbn in Hin. eexists. split.
    + cbn [length Nat.add]. rewrite (run_unfold _ _ _ _ _ Hobj Hrun).
      rewrite (run_iteration_exit_word _ _ _ _ _ _ _ _ Hin Hparse_exit Hexit).
      apply run_not_running with (obj := set_running false obj); [|done].
      cbn. by apply lookup_exit_heap_eq.
    + cbn. by repeat split.
  - cbn in Hin, Hparse, Hword.
    set (w1 := mkWorld
                 (prompted (prompt obj) true
                    (map (λ line, Line line.1.1) script ++ Line raw_exit :: rest)
                    (client w))
                 (heap w)
                 ((printed w ++ [DLine (strip raw)]) ++ [DUnhandled word args])).
    destruct (IH raw_exit args_exit rest fuel w1 Hparse_exit Hobj eq_refl)
      as (w' & Hrun' & Hheap & Hprinted & Hstdin & Hstdout & Hecho).
    exists w'. split; [|split; [|split; [|split; [|split]]]]; try done.
    + cbn [length Nat.add]. rewrite (run_unfold _ _ _ _ _ Hobj Hrun).
      rewrite (run_iteration_other_word _ _ _ _ _ _ word args Hin Hparse)
        by congruence.
      exact Hrun'.
    + rewrite Hprinted. cbn. by rewrite <- !(assoc_L (++)).
    + rewrite Hstdout. cbn. by rewrite <- !(assoc_L (++)).
Qed.

End Scripts.

Lemma run_base_repl_script_witness :
  ∃ w',
    run 3 (λ _, Repl_handle_command) 0
      (top_level_session (Some "exit") ["show version"; "help"; "exit"; "more"])
    = Some (Returned () w')
    ∧ printed w'
      = [DLine "show version"; DUnhandled "show" ["version"];
         DLine "help"; DUnhandled "help" []; DLine "exit"]
    ∧ stdin (client w') = [typed "more"].
Proof.
  destruct (run_base_repl_script 0
              (mkRepl (Some "exit") "hostname> " true None TopLevelRepl) "exit"
              [("show version" +:+ String (ascii_of_nat 10) EmptyString,
                "show", ["version"]);
               ("help" +:+ String (ascii_of_nat 10) EmptyString, "help", [])]
              eq_refl eq_refl)
    with (raw_exit := "exit" +:+ String (ascii_of_nat 10) EmptyString)
         (args_exit := @nil string) (rest := [typed "more"]) (fuel := 0)
         (w := top_level_session (Some "exit")
                 ["show version"; "help"; "exit"; "more"])
    as (w' & Hrun & _ & Hprinted & Hstdin & _).
  - repeat constructor; try reflexivity; discriminate.
  - reflexivity.
  - reflexivity.
  - reflexivity.
  - exists w'. split; [exact Hrun|]. split; [exact Hprinted|exact Hstdin].
Defined.
